(** * director/router.js: a shallow embedding of the base router

    The development follows [lib/director/router.js]: the helpers
    [_flatten], [_every], [_asyncEverySeries], [paramifyString] and
    [regifyString], then the [Router] methods [configure], [param], [on],
    [path], [dispatch], [runlist], [invoke], [traverse], [insert],
    [extend] and [mount].

    JavaScript values are a small inductive type, objects are property lists
    in enumeration order, and everything that can throw returns a [res].
    Handlers are opaque: a handler is a function identity, and what it does
    when called is given by an oracle that the statements quantify over.  The
    host's [RegExp] is an interface ([RegExpHost]); the router's own code is
    checked against every implementation of it, and run on examples over a
    reference implementation ([MiniRegExp]).

    The routing table is a tree of values: sharing of one array or
    object between two places of the table is not represented. *)

From Stdlib Require Import List String Ascii Bool Arith ZArith Lia.
From Stdlib Require Import DecimalString.
Import ListNotations.
Local Open Scope list_scope.
Local Open Scope string_scope.

(* ================================================================== *)
(** ** JavaScript values *)

Module JS.

(** Function objects are compared by identity only. *)
Definition fid := nat.

#[warnings="-register-all"] Inductive value : Type :=
| VUndef
| VNull
| VBool (b : bool)
| VNum (n : Z)
| VStr (s : string)
| VFun (f : fid)
| VArr (items : list value)
| VObj (props : list (string * value)).

Inductive jstype := TUndefined | TObject | TBoolean | TNumber | TString | TFunction.

Definition typeof (v : value) : jstype :=
  match v with
  | VUndef => TUndefined
  | VNull => TObject
  | VBool _ => TBoolean
  | VNum _ => TNumber
  | VStr _ => TString
  | VFun _ => TFunction
  | VArr _ => TObject
  | VObj _ => TObject
  end.

Definition typeof_name (t : jstype) : string :=
  match t with
  | TUndefined => "undefined"
  | TObject => "object"
  | TBoolean => "boolean"
  | TNumber => "number"
  | TString => "string"
  | TFunction => "function"
  end.

Definition jstype_eqb (a b : jstype) : bool :=
  match a, b with
  | TUndefined, TUndefined | TObject, TObject | TBoolean, TBoolean
  | TNumber, TNumber | TString, TString | TFunction, TFunction => true
  | _, _ => false
  end.

(** [Boolean(v)], the test behind [if (v)], [!v], [a || b] and
    [.filter(Boolean)]. *)
Definition truthy (v : value) : bool :=
  match v with
  | VUndef | VNull => false
  | VBool b => b
  | VNum n => negb (Z.eqb n 0)
  | VStr s => negb (s =? "")
  | VFun _ | VArr _ | VObj _ => true
  end.

Definition isArray (v : value) : bool :=
  match v with VArr _ => true | _ => false end.

(** [v === false] *)
Definition is_false (v : value) : bool :=
  match v with VBool false => true | _ => false end.

(** [a || b] *)
Definition or_else (a b : value) : value := if truthy a then a else b.

(** What a [throw] carries. *)
Inductive exn :=
| TypeError (msg : string)
| SyntaxError (msg : string)
| Error (msg : string)
| Thrown (v : value).

Inductive res (A : Type) : Type :=
| Ok (a : A)
| Throw (e : exn).
Arguments Ok {A} a.
Arguments Throw {A} e.

Definition bind {A B} (m : res A) (k : A -> res B) : res B :=
  match m with
  | Ok a => k a
  | Throw e => Throw e
  end.

(** *** Property keys

    An array index is a canonical decimal numeral; such keys are enumerated
    first, in ascending order, by [for .. in]. *)
Definition key_of_index (n : nat) : string :=
  NilEmpty.string_of_uint (Nat.to_uint n).

Definition index_of_key (k : string) : option nat :=
  match NilEmpty.uint_of_string k with
  | Some u =>
      let n := Nat.of_uint u in
      if key_of_index n =? k then Some n else None
  | None => None
  end.

Definition props := list (string * value).

Fixpoint lookup (k : string) (ps : props) : option value :=
  match ps with
  | [] => None
  | (k', v) :: t => if k' =? k then Some v else lookup k t
  end.

(** [o[k]] for a plain object with the properties [ps]. *)
Definition own (ps : props) (k : string) : value :=
  match lookup k ps with
  | Some v => v
  | None => VUndef
  end.

Definition has_key (k : string) (ps : props) : bool :=
  match lookup k ps with Some _ => true | None => false end.

Fixpoint update (k : string) (v : value) (ps : props) : props :=
  match ps with
  | [] => []
  | (k', v') :: t => if k' =? k then (k, v) :: t else (k', v') :: update k v t
  end.

(** A fresh index key goes before the first key that is not an index or is
    a larger index; any other fresh key goes last. *)
Fixpoint insert_index (n : nat) (k : string) (v : value) (ps : props) : props :=
  match ps with
  | [] => [(k, v)]
  | (k', v') :: t =>
      match index_of_key k' with
      | Some n' => if Nat.ltb n' n then (k', v') :: insert_index n k v t
                   else (k, v) :: ps
      | None => (k, v) :: ps
      end
  end.

Definition obj_set (k : string) (v : value) (ps : props) : props :=
  if has_key k ps then update k v ps
  else match index_of_key k with
       | Some n => insert_index n k v ps
       | None => (ps ++ [(k, v)])%list
       end.

Fixpoint string_chars (s : string) : list value :=
  match s with
  | EmptyString => []
  | String c s' => VStr (String c EmptyString) :: string_chars s'
  end.

(** Own properties of arrays and of string primitives: the elements and
    [length]. *)
Definition indexed_get (l : list value) (k : string) : value :=
  if k =? "length" then VNum (Z.of_nat (List.length l))
  else match index_of_key k with
       | Some n => nth n l VUndef
       | None => VUndef
       end.

(** [o[k]].  Only the own properties written out here are modelled; the
    members inherited from [Object.prototype], [Function.prototype],
    [Array.prototype] and [String.prototype] and the built-in properties
    of function objects are not, so keys are taken not to name them.
    Reading a property of [undefined] or [null] throws. *)
Definition get_prop (o : value) (k : string) : res value :=
  match o with
  | VUndef => Throw (TypeError "Cannot read property of undefined")
  | VNull => Throw (TypeError "Cannot read property of null")
  | VObj ps => Ok (own ps k)
  | VArr l => Ok (indexed_get l k)
  | VStr s => Ok (indexed_get (string_chars s) k)
  | VBool _ | VNum _ | VFun _ => Ok VUndef
  end.

(** The keys visited by [for (var k in o)], all of them own. *)
Definition own_keys (o : value) : list string :=
  match o with
  | VObj ps => map fst ps
  | VArr l => map key_of_index (seq 0 (List.length l))
  | VStr s => map key_of_index (seq 0 (String.length s))
  | _ => []
  end.

Definition hasOwnProperty (o : value) (k : string) : bool :=
  match o with
  | VObj ps => has_key k ps
  | VArr l => (k =? "length") ||
              match index_of_key k with Some n => Nat.ltb n (List.length l) | None => false end
  | VStr s => (k =? "length") ||
              match index_of_key k with Some n => Nat.ltb n (String.length s) | None => false end
  | _ => false
  end.

(** [arr.filter(Boolean)] *)
Definition filter_Boolean (l : list value) : list value := filter truthy l.

End JS.
Import JS.

Notation "x <- m ;; k" := (bind m (fun x => k))
  (at level 61, m at next level, right associativity).

(* ================================================================== *)
(** ** Strings as the source uses them *)

Module Str.

(** [~str.indexOf(c)] for a one-character [c]. *)
Fixpoint contains_char (c : ascii) (s : string) : bool :=
  match s with
  | EmptyString => false
  | String a s' => Ascii.eqb a c || contains_char c s'
  end.

(** [str.replace(/c/g, r)] for a literal character [c] and a replacement
    [r] without [$]. *)
Fixpoint replace_char_all (c : ascii) (r : string) (s : string) : string :=
  match s with
  | EmptyString => EmptyString
  | String a s' =>
      if Ascii.eqb a c then r ++ replace_char_all c r s'
      else String a (replace_char_all c r s')
  end.

Fixpoint drop (n : nat) (s : string) : string :=
  match n, s with
  | O, _ => s
  | S n', String _ s' => drop n' s'
  | S _, EmptyString => EmptyString
  end.

(** The first occurrence of [pat] in [s]: the text before it and the text
    after it. *)
Fixpoint split_first (pat s : string) : option (string * string) :=
  if String.prefix pat s then Some (EmptyString, drop (String.length pat) s)
  else match s with
       | EmptyString => None
       | String a s' =>
           match split_first pat s' with
           | Some (b, r) => Some (String a b, r)
           | None => None
           end
       end.

(** GetSubstitution of ECMA-262 for a match without capture groups:
    [$$], [$&], [$`] and [$'] are expanded, any other [$] is literal. *)
Fixpoint get_substitution (matched before after repl : string) : string :=
  match repl with
  | EmptyString => EmptyString
  | String c rest =>
      if Ascii.eqb c "$" then
        match rest with
        | EmptyString => String c EmptyString
        | String d rest' =>
            if Ascii.eqb d "$" then String "$" (get_substitution matched before after rest')
            else if Ascii.eqb d "&" then matched ++ get_substitution matched before after rest'
            else if Ascii.eqb d "`" then before ++ get_substitution matched before after rest'
            else if Ascii.eqb d "'" then after ++ get_substitution matched before after rest'
            else String c (get_substitution matched before after rest)
        end
      else String c (get_substitution matched before after rest)
  end.

(** [s.replace(pat, repl)] with a string pattern: the first occurrence
    only. *)
Definition replace_first (s pat repl : string) : string :=
  match split_first pat s with
  | None => s
  | Some (b, r) => b ++ get_substitution pat b r repl ++ r
  end.

(** [s.replace(/\\\//ig, '/')]: every backslash-slash pair becomes a
    slash. *)
Fixpoint unescape_slashes (s : string) : string :=
  match s with
  | EmptyString => EmptyString
  | String c rest =>
      if Ascii.eqb c "\" then
        match rest with
        | String d rest' =>
            if Ascii.eqb d "/" then String "/" (unescape_slashes rest')
            else String c (unescape_slashes rest)
        | EmptyString => String c EmptyString
        end
      else String c (unescape_slashes rest)
  end.

(** The matches of [/:([^\/]+)/ig] in [s], left to right.  [cur] is the
    match being read: a colon and the non-slash characters after it. *)
Definition emit (cur : option string) : list string :=
  match cur with
  | Some t => if Nat.ltb 1 (String.length t) then [t] else []
  | None => []
  end.

Fixpoint scan_tokens (cur : option string) (s : string) : list string :=
  match s with
  | EmptyString => emit cur
  | String c s' =>
      match cur with
      | Some t =>
          if Ascii.eqb c "/" then (emit cur ++ scan_tokens None s')%list
          else scan_tokens (Some (t ++ String c EmptyString)) s'
      | None =>
          if Ascii.eqb c ":" then scan_tokens (Some ":") s'
          else scan_tokens None s'
      end
  end.

(** [s.match(/:([^\/]+)/ig)]: [null] when nothing matches. *)
Definition match_tokens (s : string) : option (list string) :=
  match scan_tokens None s with
  | [] => None
  | l => Some l
  end.

End Str.

(* ================================================================== *)
(** ** The pattern compiler: [paramifyString] and [regifyString] *)

Definition params_t := list (string * (string -> string)).

Definition default_capture : string := "([a-zA-Z0-9-]+)".
Definition wildcard_capture : string := "([_.()!\ %@&a-zA-Z0-9-]+)".

(** The [for .. in] loop of [paramifyString]; [modv] is the variable [mod]
    of the source. *)
Fixpoint paramify_loop (str : string) (params : params_t) (modv : string) : string :=
  match params with
  | [] => modv
  | (_, f) :: rest =>
      let modv := f str in
      if negb (modv =? str) then modv else paramify_loop str rest modv
  end.

Definition paramifyString (str : string) (params : params_t) : string :=
  let modv := paramify_loop str params str in
  if modv =? str then default_capture else modv.

Definition regifyString (str : string) (params : params_t) : string :=
  let str :=
    if Str.contains_char "*" str
    then Str.replace_char_all "*" wildcard_capture str
    else str in
  match Str.match_tokens str with
  | Some captures =>
      fold_left
        (fun str c => Str.replace_first str c (paramifyString c params))
        captures str
  | None => str
  end.

(* ================================================================== *)
(** ** The host's regular expressions

    [new RegExp(src)] and the three string methods the router applies to
    a compiled expression.  Nothing is assumed about them. *)

Record RegExpHost : Type := {
  regex : Type;
  (** [new RegExp(src)]; [None] is a [SyntaxError]. *)
  compile : string -> option regex;
  (** [str.match(re)] for a non-global [re]: [match[0]] and
      [match.slice(1)], or [null]. *)
  exec : regex -> string -> option (string * list value);
  (** [str.split(re)] *)
  split : regex -> string -> list string;
  (** [str.replace(re, repl)] for [re] compiled with the [g] flag. *)
  replace_all : regex -> string -> string -> string
}.

Definition new_RegExp (host : RegExpHost) (src : string) : res (regex host) :=
  match compile host src with
  | Some re => Ok re
  | None => Throw (SyntaxError ("Invalid regular expression: " ++ src))
  end.

(* ================================================================== *)
(** ** The router object *)

Record every_t := {
  every_after : value;
  every_before : value;
  every_on : value
}.

Record Router := mkRouter {
  params : params_t;
  routes : value;
  methods : list string;
  scope : list string;
  _methods : list string;          (* the keys of [this._methods], all [true] *)
  recurse : value;
  async : value;
  delimiter : string;
  strict : value;
  notfound : value;
  resource : value;
  every : every_t;
  last : value;
  _invoked : value
}.

Definition set_routes (r : Router) (v : value) : Router :=
  mkRouter (params r) v (methods r) (scope r) (_methods r) (recurse r)
           (async r) (delimiter r) (strict r) (notfound r) (resource r)
           (every r) (last r) (_invoked r).

Definition set_scope (r : Router) (s : list string) : Router :=
  mkRouter (params r) (routes r) (methods r) s (_methods r) (recurse r)
           (async r) (delimiter r) (strict r) (notfound r) (resource r)
           (every r) (last r) (_invoked r).

Definition set_params (r : Router) (p : params_t) : Router :=
  mkRouter p (routes r) (methods r) (scope r) (_methods r) (recurse r)
           (async r) (delimiter r) (strict r) (notfound r) (resource r)
           (every r) (last r) (_invoked r).

Definition set_last_invoked (r : Router) (l i : value) : Router :=
  mkRouter (params r) (routes r) (methods r) (scope r) (_methods r) (recurse r)
           (async r) (delimiter r) (strict r) (notfound r) (resource r)
           (every r) l i.

(** [this._methods[k]] *)
Definition is_method (r : Router) (k : string) : bool :=
  existsb (String.eqb k) (_methods r).

(** The [options] argument of [configure]; an absent option is
    [VUndef]. *)
Record options := {
  o_recurse : value;
  o_async : value;
  o_delimiter : value;
  o_strict : value;
  o_notfound : value;
  o_resource : value;
  o_after : value;
  o_before : value;
  o_on : value
}.

Definition no_options : options :=
  Build_options VUndef VUndef VUndef VUndef VUndef VUndef VUndef VUndef VUndef.

Fixpoint add_names (ms acc : list string) : list string :=
  match ms with
  | [] => acc
  | m :: t => add_names t (if existsb (String.eqb m) acc then acc else (acc ++ [m])%list)
  end.

(** [Router.prototype.configure].  The delimiter is a string. *)
Definition configure (r : Router) (o : options) : Router :=
  mkRouter (params r) (routes r) (methods r) (scope r)
    (add_names (methods r) (_methods r))
    (or_else (o_recurse o) (or_else (recurse r) (VBool false)))
    (or_else (o_async o) (VBool false))
    (match or_else (o_delimiter o) (VStr "/") with VStr d => d | _ => "/" end)
    (match o_strict o with VUndef => VBool true | v => v end)
    (o_notfound o)
    (o_resource o)
    {| every_after := or_else (o_after o) VNull;
       every_before := or_else (o_before o) VNull;
       every_on := or_else (o_on o) VNull |}
    (last r) (_invoked r).

(** [new Router()] with an empty routing table. *)
Definition new_Router : Router :=
  configure
    (mkRouter [] (VObj []) ["on"; "after"; "before"] [] [] VUndef VUndef "/"
              VUndef VUndef VUndef (Build_every_t VUndef VUndef VUndef)
              VUndef VUndef)
    no_options.

(** [this.params[token] = f]: a token seen before keeps its place. *)
Fixpoint params_set (token : string) (f : string -> string) (ps : params_t) : params_t :=
  match ps with
  | [] => [(token, f)]
  | (k, g) :: t => if k =? token then (k, f) :: t else (k, g) :: params_set token f t
  end.

(** [Router.prototype.param]; [matcher] stands for [matcher.source ||
    matcher]. *)
Definition param (host : RegExpHost) (token matcher : string) (r : Router) : res Router :=
  let token :=
    match token with
    | String ":" _ => token
    | _ => ":" ++ token
    end in
  compiled <- new_RegExp host token ;;
  Ok (set_params r
        (params_set token (fun str => replace_all host compiled str matcher) (params r))).

(* ================================================================== *)
(** ** Insertion into the routing table

    [insert] is followed as long as it stays on plain objects, which is
    where a routing table built by [insert] itself keeps it.  A call that
    goes on into a function, an array or a primitive value, or that
    would call a [push] method of a plain object, ends in [Uncovered]:
    what JavaScript does from there on is not part of the embedding. *)

Inductive completion :=
| Normal
| Abrupt (e : exn)
| Uncovered.

Definition InvalidRouteContext (t : jstype) : exn :=
  Error ("Invalid route context: " ++ typeof_name t).

Definition nonempty (p : string) : bool := negb (p =? "").

(** [/\:|\*/.test(part)] *)
Definition has_token (part : string) : bool :=
  Str.contains_char ":" part || Str.contains_char "*" part.

Definition compile_part (ps : params_t) (part : string) : string :=
  if has_token part then regifyString part ps else part.

(** The property name that [parent[part]] reads when [part] may be
    [undefined]. *)
Definition part_key (part : option string) : string :=
  match part with Some s => s | None => "undefined" end.

(** [!part] *)
Definition part_falsy (part : option string) : bool :=
  match part with Some s => s =? "" | None => true end.

(** What the [switch (methodType)] comes to. *)
Inductive merged :=
| Merged (node' : props)     (* a [case] changed the slot and returned *)
| NoCase                     (* no [case] applied *)
| Raised (e : exn)
| Beyond.                    (* a [push] of the slot's own would be called *)

(** The [switch (methodType)] that both branches of [insert] run on the
    plain object that owns the slot. *)
Definition merge_slot (node : props) (method : string) (route : value) : merged :=
  let slot := own node method in
  match typeof slot with
  | TFunction => Merged (obj_set method (VArr [slot; route]) node)
  | TObject =>
      match slot with
      | VArr l => Merged (obj_set method (VArr (l ++ [route])%list) node)
      | VObj sps =>
          match own sps "push" with
          | VFun _ => Beyond
          | _ => Raised (TypeError "parent[method].push is not a function")
          end
      | _ => Raised (TypeError "Cannot read property 'push' of null")
      end
  | TUndefined => Merged (obj_set method route node)
  | _ => NoCase
  end.

(** [insert] from the point where [path] holds no further part: lines
    526-581.  [root] is [parent === this.routes]. *)
Definition insert_last (root : bool) (method : string) (part : option string)
           (route parent : value) : value * completion :=
  match parent with
  | VObj pps =>
      if part_falsy part && root then
        match merge_slot pps method route with
        | Merged pps' => (VObj pps', Normal)
        | NoCase => (parent, Normal)
        | Raised e => (parent, Abrupt e)
        | Beyond => (parent, Uncovered)
        end
      else
        let target := own pps (part_key part) in
        let parentType := typeof target in
        if truthy target && negb (isArray target) && jstype_eqb parentType TObject then
          match target with
          | VObj tps =>
              match merge_slot tps method route with
              | Merged tps' => (VObj (obj_set (part_key part) (VObj tps') pps), Normal)
              | NoCase => (parent, Abrupt (InvalidRouteContext parentType))
              | Raised e => (parent, Abrupt e)
              | Beyond => (parent, Uncovered)
              end
          | _ => (parent, Uncovered)
          end
        else if jstype_eqb parentType TUndefined then
          (VObj (obj_set (part_key part) (VObj [(method, route)]) pps), Normal)
        else (parent, Abrupt (InvalidRouteContext parentType))
  | _ => (parent, Uncovered)
  end.

(** [insert] on a path already filtered of empty parts; the filter is
    idempotent, so the recursive calls of the source see the same lists.
    A child is written back into its parent where the source mutates it
    in place.  [root] holds in the outermost call only: no child of the
    table is the table itself. *)
Fixpoint insert_at (ps : params_t) (root : bool) (method : string)
         (path : list string) (route parent : value) : value * completion :=
  match path with
  | [] => insert_last root method None route parent
  | p :: rest =>
      let part := compile_part ps p in
      match rest with
      | [] => insert_last root method (Some part) route parent
      | _ :: _ =>
          match parent with
          | VObj pps =>
              let child := or_else (own pps part) (VObj []) in
              let pps1 := obj_set part child pps in
              let (child', out) := insert_at ps false method rest route child in
              (VObj (obj_set part child' pps1), out)
          | _ => (parent, Uncovered)
          end
      end
  end.

(** [Router.prototype.insert(method, path, route)], [parent] left out. *)
Definition insert (method : string) (path : list string) (route : value)
           (r : Router) : Router * completion :=
  let (routes', out) :=
    insert_at (params r) true method (filter nonempty path) route (routes r) in
  (set_routes r routes', out).

(* ================================================================== *)
(** ** Calling handlers

    A handler is known by its identity.  Calling it yields a return value
    or an exception; when it was handed a continuation ([next]) it may
    call that continuation once, with an [err] argument.  A handler does
    not change the router or the list it is called from.  The run is
    observed through the list of calls made, oldest first; the
    continuation handed over in asynchronous mode is not listed among the
    arguments of a call. *)

Inductive this_t :=
| ThisRouter                      (* [self], the router *)
| ThisValue (v : value).

Record call := {
  callee : fid;
  this_arg : this_t;
  args : list value
}.

Definition trace := list call.

Inductive outcome :=
| Returns (v : value) (next : option value)   (* [next = Some err]: it called [next(err)] *)
| Raises (v : value).

Definition oracle := fid -> this_t -> list value -> outcome.

(** An array as [dispatch] hands it to [invoke]: the elements and the
    [captures] property, [None] when the array has none. *)
Record runlist_t := {
  items : list value;
  captures : option (list value)
}.

(** [fns.captures || null], as the argument list of [apply]. *)
Definition captures_or_null (fns : runlist_t) : list value :=
  match captures fns with Some c => c | None => [] end.

(** [_flatten]: [concat] splices an array argument and appends anything
    else. *)
Definition concat1 (flat : list value) (x : value) : list value :=
  match x with
  | VArr l => (flat ++ l)%list
  | v => (flat ++ [v])%list
  end.

Definition _flatten (arr : list value) : list value :=
  fold_left concat1 arr [].

(** [_every]: stops at the first element for which [iterator] answers
    [false]; the result is [undefined] either way. *)
Fixpoint _every {A} (iterator : A -> trace -> trace * res value)
         (arr : list A) (tr : trace) : trace * res value :=
  match arr with
  | [] => (tr, Ok VUndef)
  | x :: rest =>
      match iterator x tr with
      | (tr', Ok v) => if is_false v then (tr', Ok VUndef) else _every iterator rest tr'
      | (tr', Throw e) => (tr', Throw e)
      end
  end.

(** What [_asyncEverySeries] ends in: the final [callback] was called, or
    a step never called [next]. *)
Inductive series_end :=
| CallbackCalled (cb_args : list value)
| Stalled.

Section Invoke.

Variable handler : oracle.
Variable self : Router.

Definition call_fn (f : fid) (thisArg : this_t) (a : list value) (tr : trace)
  : trace * res value :=
  let tr' := (tr ++ [Build_call f thisArg a])%list in
  match handler f thisArg a with
  | Returns v _ => (tr', Ok v)
  | Raises v => (tr', Throw (Thrown v))
  end.

(** The function [apply] of the synchronous branch of [invoke]; [a] is
    the argument list [fns.captures || null] that it reads from the
    enclosing call. *)
Fixpoint apply (thisArg : this_t) (a : list value) (fn : value) (tr : trace)
  : trace * res value :=
  match fn with
  | VArr l => _every (apply thisArg a) l tr
  | VFun f => call_fn f thisArg a tr
  | VStr name =>
      if truthy (resource self) then
        match get_prop (resource self) name with
        | Ok (VFun g) =>
            match call_fn g thisArg a tr with
            | (tr', Ok _) => (tr', Ok VUndef)
            | (tr', Throw e) => (tr', Throw e)
            end
        | Ok _ => (tr, Throw (TypeError "self.resource[fn].apply is not a function"))
        | Throw e => (tr, Throw e)
        end
      else (tr, Ok VUndef)
  | _ => (tr, Ok VUndef)
  end.

Definition invoke_sync (fns : runlist_t) (thisArg : this_t) (tr : trace)
  : trace * res value :=
  _every (apply thisArg (captures_or_null fns)) (items fns) tr.

(** The iterator of the asynchronous branch: [Some err] when [next(err)]
    was called, [None] when it was not. *)
Definition async_iterator (thisArg : this_t) (fns : runlist_t) (fn : value)
           (tr : trace) : trace * res (option value) :=
  match fn with
  | VFun f =>
      match captures fns with
      | None => (tr, Throw (TypeError "Cannot read property 'concat' of undefined"))
      | Some c =>
          let tr' := (tr ++ [Build_call f thisArg c])%list in
          match handler f thisArg c with
          | Returns _ n => (tr', Ok n)
          | Raises v => (tr', Throw (Thrown v))
          end
      end
  | _ => (tr, Ok None)
  end.

(** [iterate], on the elements from index [completed] on. *)
Fixpoint iterate (iterator : value -> trace -> trace * res (option value))
         (rest : list value) (tr : trace) : trace * res series_end :=
  match rest with
  | [] => (tr, Ok (CallbackCalled []))
  | x :: rest' =>
      match iterator x tr with
      | (tr', Throw e) => (tr', Throw e)
      | (tr', Ok None) => (tr', Ok Stalled)
      | (tr', Ok (Some err)) =>
          if truthy err || is_false err then (tr', Ok (CallbackCalled [err]))
          else iterate iterator rest' tr'
      end
  end.

Definition _asyncEverySeries (iterator : value -> trace -> trace * res (option value))
           (arr : list value) (tr : trace) : trace * res series_end :=
  match arr with
  | [] => (tr, Ok (CallbackCalled []))
  | _ :: _ => iterate iterator arr tr
  end.

Definition invoke_async (fns : runlist_t) (thisArg : this_t) (tr : trace)
  : trace * res series_end :=
  _asyncEverySeries (async_iterator thisArg fns) (items fns) tr.

(** [if (callback) callback.apply(null, arguments)] for a callback given
    by the caller of [dispatch]. *)
Definition run_callback (callback : value) (e : series_end) (tr : trace)
  : trace * res unit :=
  match e with
  | Stalled => (tr, Ok tt)
  | CallbackCalled a =>
      if truthy callback then
        match callback with
        | VFun f =>
            match call_fn f (ThisValue VNull) a tr with
            | (tr', Ok _) => (tr', Ok tt)
            | (tr', Throw x) => (tr', Throw x)
            end
        | _ => (tr, Throw (TypeError "callback.apply is not a function"))
        end
      else (tr, Ok tt)
  end.

(** [Router.prototype.invoke(fns, thisArg, callback)] *)
Definition invoke (fns : runlist_t) (thisArg : this_t) (callback : value)
           (tr : trace) : trace * res unit :=
  if truthy (async self) then
    match invoke_async fns thisArg tr with
    | (tr', Ok e) => run_callback callback e tr'
    | (tr', Throw x) => (tr', Throw x)
    end
  else
    match invoke_sync fns thisArg tr with
    | (tr', Ok _) => (tr', Ok tt)
    | (tr', Throw x) => (tr', Throw x)
    end.

End Invoke.

(* ================================================================== *)
(** ** Traversal of the routing table *)

(** The array [traverse] returns when it found something: its elements
    (one array of handlers per level), and its [after] and [captures]
    properties; [matched] is [true] on every such array. *)
Record fns_t := {
  layers : list value;
  after : list value;
  fn_captures : list value
}.

Inductive tresult :=
| TFalse
| TFns (f : fns_t).

Definition RangeError : exn := Error "Maximum call stack size exceeded".

Section Traverse.

Variable host : RegExpHost.
Variable self : Router.

(** [[node.before, node[method]].filter(Boolean)] *)
Definition on_layer (node : value) (method : string) : res value :=
  b <- get_prop node "before" ;;
  h <- get_prop node method ;;
  Ok (VArr (filter_Boolean [b; h])).

(** [[node.after].filter(Boolean)] *)
Definition after_layer (node : value) : res (list value) :=
  a <- get_prop node "after" ;;
  Ok (filter_Boolean [a]).

(** The test that guards the body of the [for .. in] loop. *)
Definition explorable (routes : value) (r : string) : res bool :=
  if hasOwnProperty routes r then
    if negb (is_method self r) then Ok true
    else
      v <- get_prop routes r ;;
      Ok (jstype_eqb (typeof v) TObject && negb (isArray v))
  else Ok false.

(** [current], the pattern accumulated down to key [r]. *)
Definition current_of (regexp r : string) : string :=
  regexp ++ delimiter self ++ r.

(** [exact]: [current], followed by the optional delimiter class when the
    router is not strict. *)
Definition exact_of (regexp r : string) : string :=
  if truthy (strict self) then current_of regexp r
  else current_of regexp r ++ "[" ++ delimiter self ++ "]?".

(** The [for (var r in routes)] loop over the keys still to visit;
    [rec] is the recursive call. *)
Fixpoint traverse_loop (rec : value -> string -> res tresult)
         (method path : string) (routes : value) (regexp : string)
         (keys : list string) : res tresult :=
  match keys with
  | [] => Ok TFalse
  | r :: keys' =>
      ok <- explorable routes r ;;
      if negb ok then traverse_loop rec method path routes regexp keys'
      else
        re <- new_RegExp host ("^" ++ exact_of regexp r) ;;
        match exec host re path with
        | None => traverse_loop rec method path routes regexp keys'
        | Some (m0, groups) =>
            child <- get_prop routes r ;;
            h <- (if negb (m0 =? "") && (m0 =? path)
                  then get_prop child method else Ok (VBool false)) ;;
            if negb (m0 =? "") && (m0 =? path) && truthy h then
              l <- on_layer child method ;;
              a <- after_layer child ;;
              Ok (TFns {| layers := [l]; after := a; fn_captures := groups |})
            else
              next <- rec child (current_of regexp r) ;;
              match next with
              | TFalse => traverse_loop rec method path routes regexp keys'
              | TFns n =>
                  if truthy (recurse self) then
                    b <- get_prop child "before" ;;
                    o <- get_prop child "on" ;;
                    a <- after_layer child ;;
                    Ok (TFns {| layers := (layers n ++ [VArr (filter_Boolean [b; o])])%list;
                                after := (after n ++ a)%list;
                                fn_captures := fn_captures n |})
                  else Ok (TFns n)
              end
        end
  end.

Definition traverse_body (rec : value -> string -> res tresult)
           (method path : string) (routes : value) (regexp : string)
  : res tresult :=
  root <- (if path =? delimiter self then get_prop routes method
           else Ok (VBool false)) ;;
  if (path =? delimiter self) && truthy root then
    l <- on_layer routes method ;;
    a <- after_layer routes ;;
    Ok (TFns {| layers := [l]; after := a; fn_captures := [] |})
  else
    traverse_loop rec method path routes regexp (own_keys routes).

(** [Router.prototype.traverse].  [depth] is the number of nested calls
    the stack still has room for. *)
Fixpoint traverse (depth : nat) (method path : string) (routes : value)
         (regexp : string) : res tresult :=
  traverse_body
    (match depth with
     | O => fun _ _ => Throw RangeError
     | S d => fun routes' regexp' => traverse d method path routes' regexp'
     end)
    method path routes regexp.

End Traverse.

(* ================================================================== *)
(** ** Dispatch *)

Section Dispatch.

Variable host : RegExpHost.
Variable handler : oracle.

(** [Router.prototype.runlist] *)
Definition runlist (self : Router) (fns : fns_t) : runlist_t :=
  let l :=
    if truthy (every_before (every self))
    then (every_before (every self) :: _flatten (layers fns))
    else _flatten (layers fns) in
  let l :=
    if truthy (every_on (every self)) then (l ++ [every_on (every self)])%list
    else l in
  {| items := l; captures := Some (fn_captures fns) |}.

(** [updateAndInvoke] *)
Definition updateAndInvoke (self : Router) (fns : fns_t) (callback : value)
           (tr : trace) : Router * trace * res unit :=
  let self := set_last_invoked self (VArr (after fns)) (_invoked self) in
  let (tr', out) := invoke handler self (runlist self fns) ThisRouter callback tr in
  (self, tr', out).

(** The list [after] that [dispatch] builds from the global [after] hook
    and [this.last]. *)
Definition after_list (self : Router) : runlist_t :=
  {| items :=
       if truthy (every_after (every self))
       then concat1 [every_after (every self)] (last self)
       else [last self];
     captures := None |}.

(** [Router.prototype.dispatch(method, path, callback)]: the router
    afterwards, the calls made, and the value returned. *)
Definition dispatch (depth : nat) (method path : string) (callback : value)
           (self : Router) (tr : trace) : Router * trace * res bool :=
  match traverse host self depth method path (routes self) "" with
  | Throw e => (self, tr, Throw e)
  | Ok fns =>
      let invoked := _invoked self in
      let self := set_last_invoked self (last self) (VBool true) in
      match fns with
      | TFalse
      | TFns {| layers := [] |} =>
          let self := set_last_invoked self (VArr []) (_invoked self) in
          match typeof (notfound self) with
          | TFunction =>
              let this := ThisValue (VObj [("method", VStr method); ("path", VStr path)]) in
              match invoke handler self {| items := [notfound self]; captures := None |}
                           this callback tr with
              | (tr', Ok _) => (self, tr', Ok false)
              | (tr', Throw e) => (self, tr', Throw e)
              end
          | _ => (self, tr, Ok false)
          end
      | TFns fns =>
          let fns :=
            match recurse self with
            | VStr "forward" =>
                {| layers := rev (layers fns); after := after fns;
                   fn_captures := fn_captures fns |}
            | _ => fns
            end in
          let after := after_list self in
          if negb (Nat.eqb (List.length (items after)) 0) && truthy invoked then
            if truthy (async self) then
              match invoke_async handler after ThisRouter tr with
              | (tr', Throw e) => (self, tr', Throw e)
              | (tr', Ok Stalled) => (self, tr', Ok true)
              | (tr', Ok (CallbackCalled _)) =>
                  match updateAndInvoke self fns callback tr' with
                  | (self', tr'', Ok _) => (self', tr'', Ok true)
                  | (self', tr'', Throw e) => (self', tr'', Throw e)
                  end
              end
            else
              match invoke handler self after ThisRouter VUndef tr with
              | (tr', Throw e) => (self, tr', Throw e)
              | (tr', Ok _) =>
                  match updateAndInvoke self fns callback tr' with
                  | (self', tr'', Ok _) => (self', tr'', Ok true)
                  | (self', tr'', Throw e) => (self', tr'', Throw e)
                  end
              end
          else
            match updateAndInvoke self fns callback tr with
            | (self', tr', Ok _) => (self', tr', Ok true)
            | (self', tr', Throw e) => (self', tr', Throw e)
            end
      end
  end.

End Dispatch.

(* ================================================================== *)
(** ** Declaring routes: [on] and [path]

    The function handed to [path] is given by what it does with the router
    it receives: a sequence of calls to the router's own declaration
    methods, [routesFn]s of nested [path] calls included. *)

Inductive path_arg :=
| PStr (s : string)
| PRegExp (source : string).

Inductive on_args :=
| OnRoute (p : path_arg) (route : fid)                    (* [on(path, fn)] *)
| OnMethod (m : string) (p : path_arg) (route : value)    (* [on(method, path, route)] *)
| OnMethods (ms : list string) (p : path_arg) (route : value).

#[warnings="-register-all"] Inductive decl :=
| DOn (a : on_args)
| DParam (token matcher : string)
| DPath (p : path_arg) (routesFn : list decl).

(** [if (path.source) path = path.source.replace(/\\\//ig, '/')] *)
Definition path_string (p : path_arg) : string :=
  match p with
  | PStr s => s
  | PRegExp src => if nonempty src then Str.unescape_slashes src else src
  end.

(** [Array.prototype.splice(start, count)] as used on [this.scope]. *)
Definition splice {A} (l : list A) (start count : nat) : list A :=
  (firstn start l ++ skipn (start + count) l)%list.

Section Declare.

Variable host : RegExpHost.

(** [path.split(new RegExp(this.delimiter))] *)
Definition split_path (self : Router) (path : string) : res (list string) :=
  re <- new_RegExp host (delimiter self) ;;
  Ok (split host re path).

(** [on] for one method name. *)
Definition on1 (method : string) (path : string) (route : value) (self : Router)
  : Router * completion :=
  match split_path self path with
  | Throw e => (self, Abrupt e)
  | Ok parts => insert method (scope self ++ parts)%list route self
  end.

(** [method.forEach(function (m) { self.on(m, path, route) })] *)
Fixpoint on_each (ms : list string) (path : string) (route : value) (self : Router)
  : Router * completion :=
  match ms with
  | [] => (self, Normal)
  | m :: rest =>
      match on1 m path route self with
      | (self', Normal) => on_each rest path route self'
      | (self', out) => (self', out)
      end
  end.

(** [Router.prototype.on] *)
Definition on (a : on_args) (self : Router) : Router * completion :=
  match a with
  | OnRoute p route => on1 "on" (path_string p) (VFun route) self
  | OnMethod m p route => on1 m (path_string p) route self
  | OnMethods ms p route => on_each ms (path_string p) route self
  end.

(** [Router.prototype.path(path, routesFn)], together with what running
    a [routesFn] means. *)
Fixpoint run_decl (d : decl) (self : Router) : Router * completion :=
  match d with
  | DOn a => on a self
  | DParam token matcher =>
      match param host token matcher self with
      | Ok self' => (self', Normal)
      | Throw e => (self, Abrupt e)
      end
  | DPath p routesFn =>
      let length := List.length (scope self) in
      match split_path self (path_string p) with
      | Throw e => (self, Abrupt e)
      | Ok parts =>
          let self := set_scope self (scope self ++ parts)%list in
          let call :=
            (fix run (ds : list decl) (self : Router) : Router * completion :=
               match ds with
               | [] => (self, Normal)
               | d :: ds' =>
                   match run_decl d self with
                   | (self', Normal) => run ds' self'
                   | (self', out) => (self', out)
                   end
               end) routesFn self in
          match call with
          | (self', Normal) =>
              (set_scope self' (splice (scope self') length (List.length parts)), Normal)
          | (self', out) => (self', out)
          end
      end
  end.

Fixpoint run_decls (ds : list decl) (self : Router) : Router * completion :=
  match ds with
  | [] => (self, Normal)
  | d :: ds' =>
      match run_decl d self with
      | (self', Normal) => run_decls ds' self'
      | (self', out) => (self', out)
      end
  end.

Definition path (p : path_arg) (routesFn : list decl) (self : Router)
  : Router * completion :=
  run_decl (DPath p routesFn) self.

End Declare.

(* ================================================================== *)
(** ** Mounting a table of routes: [mount] and [extend] *)

(** [s.split(sep)] for a string separator.  With the empty separator the
    string falls into its characters. *)
Fixpoint chars_of (s : string) : list string :=
  match s with
  | EmptyString => []
  | String c s' => String c EmptyString :: chars_of s'
  end.

(** The scan of [split] for a separator that is not empty: [piece] is the
    text since the last separator, [skip] the number of characters of a
    separator found that are still to be passed over. *)
Fixpoint split_on (sep : string) (skip : nat) (piece s : string) : list string :=
  match s with
  | EmptyString => [piece]
  | String a rest =>
      match skip with
      | S n => split_on sep n piece rest
      | O =>
          if String.prefix sep s
          then piece :: split_on sep (String.length sep - 1) EmptyString rest
          else split_on sep 0 (piece ++ String a EmptyString) rest
      end
  end.

Definition string_split (sep s : string) : list string :=
  if sep =? "" then chars_of s else split_on sep 0 EmptyString s.

Definition set_method_names (r : Router) (ms : list string) : Router :=
  mkRouter (params r) (routes r) (methods r) (scope r) ms (recurse r)
           (async r) (delimiter r) (strict r) (notfound r) (resource r)
           (every r) (last r) (_invoked r).

(** The names a router object has to begin with, its own and those of
    its prototype. *)
Definition router_members : list string :=
  ["params"; "routes"; "methods"; "scope"; "_methods"; "recurse"; "async";
   "delimiter"; "strict"; "notfound"; "resource"; "every"; "last"; "_invoked";
   "configure"; "param"; "on"; "route"; "path"; "dispatch"; "runlist";
   "invoke"; "traverse"; "insert"; "extend"; "mount"].

(** [Router.prototype.extend(methods)]: each name is registered in
    [this._methods], and a helper function is stored on the router under
    that name.  A name that the router already has as a member would be
    overwritten by the helper; [extend] is followed up to such a name and
    ends in [Uncovered] there. *)
Fixpoint extend (ms : list string) (self : Router) : Router * completion :=
  match ms with
  | [] => (self, Normal)
  | method :: rest =>
      if existsb (String.eqb method) router_members then (self, Uncovered)
      else extend rest (set_method_names self (add_names [method] (_methods self)))
  end.

(** The arguments a helper stored by [extend] is called with: the route
    alone, or a path and the route. *)
Inductive helper_args :=
| HRoute (route : value)
| HPathRoute (p : path_arg) (route : value).

(** The helper that [extend] stores for [method]: [on] with the method
    put in front of the arguments, and the empty path when there is one
    argument only. *)
Definition helper (host : RegExpHost) (method : string) (a : helper_args)
           (self : Router) : Router * completion :=
  match a with
  | HRoute route => on host (OnMethod method (PStr "") route) self
  | HPathRoute p route => on host (OnMethod method p route) self
  end.

(** [insertOrMount(route, local)] for the key [route] of the object with
    the properties [routes]; [rec] is the recursive call of [mount]. *)
Definition insertOrMount (rec : value -> list string -> Router -> Router * completion)
           (routes : props) (route : string) (local : list string) (self : Router)
  : Router * completion :=
  let rename := route in
  let parts := string_split (delimiter self) route in
  let target := own routes route in
  let routeType := typeof target in
  let isRoute :=
    match parts with
    | p0 :: _ => (p0 =? "") || negb (is_method self p0)
    | [] => negb (is_method self "undefined")
    end in
  let event := if isRoute then "on" else rename in
  let rename :=
    if isRoute then Str.drop (String.length (delimiter self)) rename else rename in
  let parts := if isRoute then tl parts else parts in
  if isRoute && jstype_eqb routeType TObject && negb (isArray target) then
    rec target (local ++ parts)%list self
  else
    let local :=
      if isRoute then (local ++ string_split (delimiter self) rename)%list
      else local in
    insert event local target self.

(** The [for (var route in routes)] loop of [mount] over the keys still
    to visit. *)
Fixpoint mount_loop (rec : value -> list string -> Router -> Router * completion)
         (routes : props) (keys : list string) (path : list string) (self : Router)
  : Router * completion :=
  match keys with
  | [] => (self, Normal)
  | route :: keys' =>
      if has_key route routes then
        match insertOrMount rec routes route path self with
        | (self', Normal) => mount_loop rec routes keys' path self'
        | (self', out) => (self', out)
        end
      else mount_loop rec routes keys' path self
  end.

Definition mount_body (rec : value -> list string -> Router -> Router * completion)
           (routes : value) (path : list string) (self : Router)
  : Router * completion :=
  if negb (truthy routes) || negb (jstype_eqb (typeof routes) TObject) || isArray routes
  then (self, Normal)
  else
    match routes with
    | VObj ps => mount_loop rec ps (own_keys routes) path self
    | _ => (self, Normal)
    end.

(** [Router.prototype.mount(routes, path)]; [path] stands for
    [path || []].  [depth] is the number of nested calls the stack still
    has room for. *)
Fixpoint mount (depth : nat) (routes : value) (path : list string) (self : Router)
  : Router * completion :=
  mount_body
    (match depth with
     | O => fun _ _ self' => (self', Abrupt RangeError)
     | S d => fun routes' path' self' => mount d routes' path' self'
     end)
    routes path self.


(* ================================================================== *)
(** ** A reference host

    One implementation of [RegExpHost], used to run the router on concrete
    tables.  It is a backtracking matcher for the part of the syntax that
    the router itself emits and that the examples need: literal
    characters, identity escapes, [\d] [\w] [\s], [.], character classes,
    groups, [|], the greedy quantifiers [*] [+] [?], [^] and [$].  Any
    other pattern is rejected by [compile]; [$1] .. [$99] in a replacement
    string are left as they are. *)

Module MiniRegExp.

Inductive re :=
| REps
| RChar (c : ascii)
| RAny
| RClass (neg : bool) (ranges : list (ascii * ascii))
| RSeq (a b : re)
| RAlt (a b : re)
| RStar (a : re)
| RGroup (n : nat) (a : re)
| RBol
| REol.

Definition chr (n : nat) : ascii := ascii_of_nat n.

Definition digit_ranges : list (ascii * ascii) := [("0", "9")]%char.
Definition word_ranges : list (ascii * ascii) :=
  [("a", "z"); ("A", "Z"); ("0", "9"); ("_", "_")]%char.
Definition space_ranges : list (ascii * ascii) :=
  [(" ", " "); (chr 9, chr 13)]%char.

Definition is_alnum (c : ascii) : bool :=
  let n := nat_of_ascii c in
  (Nat.leb 48 n && Nat.leb n 57) || (Nat.leb 65 n && Nat.leb n 90)
  || (Nat.leb 97 n && Nat.leb n 122).

(** The ranges an escape stands for, inside or outside a class. *)
Definition escape_ranges (c : ascii) : option (list (ascii * ascii)) :=
  if Ascii.eqb c "d" then Some digit_ranges
  else if Ascii.eqb c "w" then Some word_ranges
  else if Ascii.eqb c "s" then Some space_ranges
  else if Ascii.eqb c "n" then Some [(chr 10, chr 10)]
  else if Ascii.eqb c "t" then Some [(chr 9, chr 9)]
  else if Ascii.eqb c "r" then Some [(chr 13, chr 13)]
  else if is_alnum c then None
  else Some [(c, c)].

(** The inside of [[...]], after the optional [^]. *)
Fixpoint class_items (s : string) : option (list (ascii * ascii) * string) :=
  match s with
  | EmptyString => None
  | String a rest1 =>
      if Ascii.eqb a "]" then Some ([], rest1)
      else if Ascii.eqb a "\" then
        match rest1 with
        | String c rest2 =>
            match escape_ranges c, class_items rest2 with
            | Some rs, Some (l, rest) => Some ((rs ++ l)%list, rest)
            | _, _ => None
            end
        | EmptyString => None
        end
      else
        match rest1 with
        | String d (String b rest2) =>
            if Ascii.eqb d "-" && negb (Ascii.eqb b "]") then
              if Ascii.eqb b "\" then None
              else match class_items rest2 with
                   | Some (l, rest) => Some ((a, b) :: l, rest)
                   | None => None
                   end
            else match class_items rest1 with
                 | Some (l, rest) => Some ((a, a) :: l, rest)
                 | None => None
                 end
        | _ => match class_items rest1 with
               | Some (l, rest) => Some ((a, a) :: l, rest)
               | None => None
               end
        end
  end.

(** One greedy quantifier after an atom; a second one, a lazy mark or a
    brace is outside the fragment. *)
Definition quantify (a : re) (s : string) : option (re * string) :=
  let after (q : re) (rest : string) :=
    match rest with
    | String c _ =>
        if Ascii.eqb c "?" || Ascii.eqb c "*" || Ascii.eqb c "+" || Ascii.eqb c "{"
        then None else Some (q, rest)
    | EmptyString => Some (q, rest)
    end in
  match s with
  | String c rest =>
      if Ascii.eqb c "*" then after (RStar a) rest
      else if Ascii.eqb c "+" then after (RSeq a (RStar a)) rest
      else if Ascii.eqb c "?" then after (RAlt a REps) rest
      else if Ascii.eqb c "{" then None
      else Some (a, s)
  | EmptyString => Some (a, s)
  end.

Definition pstate := (re * string * nat)%type.

Fixpoint parse_alt (fuel : nat) (s : string) (n : nat) : option pstate :=
  match fuel with
  | O => None
  | S f =>
      match parse_seq f s n with
      | Some (a, String c rest, n1) =>
          if Ascii.eqb c "|" then
            match parse_alt f rest n1 with
            | Some (b, rest', n2) => Some (RAlt a b, rest', n2)
            | None => None
            end
          else Some (a, String c rest, n1)
      | r => r
      end
  end
with parse_seq (fuel : nat) (s : string) (n : nat) : option pstate :=
  match fuel with
  | O => None
  | S f =>
      match s with
      | EmptyString => Some (REps, s, n)
      | String c _ =>
          if Ascii.eqb c "|" || Ascii.eqb c ")" then Some (REps, s, n)
          else
            match parse_atom f s n with
            | Some (a, rest, n1) =>
                match parse_seq f rest n1 with
                | Some (b, rest', n2) => Some (RSeq a b, rest', n2)
                | None => None
                end
            | None => None
            end
      end
  end
with parse_atom (fuel : nat) (s : string) (n : nat) : option pstate :=
  match fuel with
  | O => None
  | S f =>
      let quantified (a : re) (rest : string) (n : nat) : option pstate :=
        match quantify a rest with
        | Some (q, rest') => Some (q, rest', n)
        | None => None
        end in
      let closed (wrap : re -> re) (r : option pstate) : option pstate :=
        match r with
        | Some (a, String c rest, n1) =>
            if Ascii.eqb c ")" then quantified (wrap a) rest n1 else None
        | _ => None
        end in
      match s with
      | EmptyString => None
      | String c rest =>
          if Ascii.eqb c "(" then
            match rest with
            | String "?" (String ":" rest') => closed (fun a => a) (parse_alt f rest' n)
            | String "?" _ => None
            | _ => closed (RGroup (S n)) (parse_alt f rest (S n))
            end
          else if Ascii.eqb c "[" then
            let (neg, body) :=
              match rest with
              | String "^" body => (true, body)
              | _ => (false, rest)
              end in
            match class_items body with
            | Some (l, rest') => quantified (RClass neg l) rest' n
            | None => None
            end
          else if Ascii.eqb c "\" then
            match rest with
            | String e rest' =>
                match escape_ranges e with
                | Some [(lo, hi)] =>
                    if Ascii.eqb lo hi then quantified (RChar lo) rest' n
                    else quantified (RClass false [(lo, hi)]) rest' n
                | Some rs => quantified (RClass false rs) rest' n
                | None => None
                end
            | EmptyString => None
            end
          else if Ascii.eqb c "." then quantified RAny rest n
          else if Ascii.eqb c "^" then Some (RBol, rest, n)
          else if Ascii.eqb c "$" then Some (REol, rest, n)
          else if Ascii.eqb c "*" || Ascii.eqb c "+" || Ascii.eqb c "?"
                  || Ascii.eqb c "{" || Ascii.eqb c "}" then None
          else quantified (RChar c) rest n
      end
  end.

(** A compiled expression: the syntax tree and the number of groups. *)
Definition compiled := (re * nat)%type.

Definition parse (src : string) : option compiled :=
  match parse_alt (3 * String.length src + 3) src 0 with
  | Some (a, EmptyString, n) => Some (a, n)
  | _ => None
  end.

Definition in_ranges (c : ascii) (rs : list (ascii * ascii)) : bool :=
  existsb (fun r => Nat.leb (nat_of_ascii (fst r)) (nat_of_ascii c)
                    && Nat.leb (nat_of_ascii c) (nat_of_ascii (snd r))) rs.

Definition is_line_end (c : ascii) : bool :=
  Ascii.eqb c (chr 10) || Ascii.eqb c (chr 13).

Definition caps := list (nat * string).

Fixpoint take (n : nat) (s : string) : string :=
  match n, s with
  | S n', String c s' => String c (take n' s')
  | _, _ => EmptyString
  end.

(** The text of [s] that was consumed to reach its suffix [s']. *)
Definition consumed (s s' : string) : string :=
  take (String.length s - String.length s') s.

Definition orelse {A} (a b : option A) : option A :=
  match a with Some _ => a | None => b end.

(** Backtracking match of [r] at the front of [s], then [k] on what is
    left; alternatives are tried in priority order. *)
Fixpoint run (r : re) (input s : string) (c : caps)
         (k : string -> caps -> option (string * caps)) : option (string * caps) :=
  match r with
  | REps => k s c
  | RChar a =>
      match s with
      | String b s' => if Ascii.eqb a b then k s' c else None
      | EmptyString => None
      end
  | RAny =>
      match s with
      | String b s' => if is_line_end b then None else k s' c
      | EmptyString => None
      end
  | RClass neg rs =>
      match s with
      | String b s' => if xorb neg (in_ranges b rs) then k s' c else None
      | EmptyString => None
      end
  | RSeq a b => run a input s c (fun s' c' => run b input s' c' k)
  | RAlt a b => orelse (run a input s c k) (run b input s c k)
  | RStar a =>
      (fix loop (n : nat) (s : string) (c : caps) : option (string * caps) :=
         match n with
         | O => k s c
         | S n' =>
             orelse
               (run a input s c
                    (fun s' c' =>
                       if Nat.ltb (String.length s') (String.length s)
                       then loop n' s' c' else None))
               (k s c)
         end) (String.length s) s c
  | RGroup n a =>
      run a input s c (fun s' c' => k s' ((n, consumed s s') :: c'))
  | RBol => if Nat.eqb (String.length s) (String.length input) then k s c else None
  | REol => match s with EmptyString => k s c | _ => None end
  end.

Definition run_at (p : compiled) (input s : string) : option (string * caps) :=
  run (fst p) input s [] (fun s' c' => Some (s', c')).

Fixpoint cap_lookup (n : nat) (c : caps) : option string :=
  match c with
  | [] => None
  | (m, t) :: rest => if Nat.eqb m n then Some t else cap_lookup n rest
  end.

(** [match.slice(1)]: a group that took no part is [undefined]. *)
Definition groups_of (p : compiled) (c : caps) : list value :=
  map (fun n => match cap_lookup n c with Some t => VStr t | None => VUndef end)
      (seq 1 (snd p)).

(** The leftmost match at or after the front of [s]: the text skipped,
    the text matched, what is left, and the groups. *)
Fixpoint search (p : compiled) (input s : string)
  : option (string * string * string * caps) :=
  match run_at p input s with
  | Some (s', c) => Some (EmptyString, consumed s s', s', c)
  | None =>
      match s with
      | EmptyString => None
      | String a rest =>
          match search p input rest with
          | Some (skipped, m0, s', c) => Some (String a skipped, m0, s', c)
          | None => None
          end
      end
  end.

Definition mini_exec (p : compiled) (input : string) : option (string * list value) :=
  match search p input input with
  | Some (_, m0, _, c) => Some (m0, groups_of p c)
  | None => None
  end.

Definition group_strings (p : compiled) (c : caps) : list string :=
  map (fun n => match cap_lookup n c with Some t => t | None => EmptyString end)
      (seq 1 (snd p)).

(** [split]: [piece] is the text since the last separator. *)
Fixpoint split_loop (fuel : nat) (p : compiled) (input piece s : string)
  : list string :=
  match fuel with
  | O => [piece ++ s]
  | S f =>
      match s with
      | EmptyString => [piece]
      | String a rest =>
          match run_at p input s with
          | Some (s', c) =>
              if (String.length s' =? String.length s)%nat && (piece =? "")
              then split_loop f p input (piece ++ String a EmptyString) rest
              else (piece :: group_strings p c ++ split_loop f p input EmptyString s')%list
          | None => split_loop f p input (piece ++ String a EmptyString) rest
          end
      end
  end.

Definition mini_split (p : compiled) (input : string) : list string :=
  match input with
  | EmptyString =>
      match run_at p input input with Some _ => [] | None => [input] end
  | _ => split_loop (2 * String.length input + 2) p input EmptyString input
  end.

Fixpoint replace_loop (fuel : nat) (p : compiled) (input done s repl : string)
  : string :=
  match fuel with
  | O => s
  | S f =>
      match search p input s with
      | None => s
      | Some (skipped, m0, s', _) =>
          let out := skipped ++ Str.get_substitution m0 (done ++ skipped) s' repl in
          match m0, s' with
          | EmptyString, String a rest =>
              out ++ String a (replace_loop f p input (done ++ skipped ++ String a EmptyString) rest repl)
          | EmptyString, EmptyString => out
          | _, _ => out ++ replace_loop f p input (done ++ skipped ++ m0) s' repl
          end
      end
  end.

Definition mini_replace_all (p : compiled) (input repl : string) : string :=
  replace_loop (String.length input + 1) p input EmptyString input repl.

Definition host : RegExpHost :=
  {| regex := compiled;
     compile := parse;
     exec := mini_exec;
     split := mini_split;
     replace_all := mini_replace_all |}.

End MiniRegExp.

(* ================================================================== *)
(** * The vocabulary of the statements *)

(** Whether a registered substitution changes the token. *)
Definition changes (tok : string) (kv : string * (string -> string)) : bool :=
  negb (snd kv tok =? tok).

(** Text in which every colon is directly followed by a slash: the token
    scan finds nothing in it, whatever comes after it. *)
Fixpoint inert (s : string) : bool :=
  match s with
  | EmptyString => true
  | String c s' =>
      if Ascii.eqb c ":" then
        match s' with
        | String d _ => Ascii.eqb d "/" && inert s'
        | EmptyString => false
        end
      else inert s'
  end.

(** Replacement text that [replace] writes out unchanged and that brings
    in nothing to compile. *)
Definition clean (s : string) : bool :=
  negb (Str.contains_char ":" s) && negb (Str.contains_char "*" s)
  && negb (Str.contains_char "$" s).

(** The first step of [regifyString]: every star becomes the wildcard
    group. *)
Definition expand_wildcards (s : string) : string :=
  if Str.contains_char "*" s then Str.replace_char_all "*" wildcard_capture s else s.

(** The tokens that [regifyString] finds in [s], after that step. *)
Definition compiled_tokens (s : string) : list string :=
  Str.scan_tokens None (expand_wildcards s).

(** A token: a colon, a first character that is not a slash, and further
    characters none of which is a slash. *)
Definition is_token (t : string) : Prop :=
  exists c run, t = String ":" (String c run)
                /\ Ascii.eqb c "/" = false
                /\ Str.contains_char "/" run = false.

(** The characters up to the next slash. *)
Fixpoint span_run (s : string) : string * string :=
  match s with
  | EmptyString => (EmptyString, EmptyString)
  | String c s' =>
      if Ascii.eqb c "/" then (EmptyString, s)
      else let (run, rest) := span_run s' in (String c run, rest)
  end.

(** The node reached from [v] through the keys [keys], each step through
    a plain object. *)
Fixpoint node_at (v : value) (keys : list string) : option value :=
  match keys with
  | [] => Some v
  | k :: rest =>
      match v with
      | VObj ps =>
          match lookup k ps with
          | Some c => node_at c rest
          | None => None
          end
      | _ => None
      end
  end.

(** The table [v] with the node at [keys] replaced by [new]. *)
Fixpoint put (v : value) (keys : list string) (new : value) : value :=
  match keys with
  | [] => new
  | k :: rest =>
      match v with
      | VObj ps =>
          match lookup k ps with
          | Some c => VObj (obj_set k (put c rest new) ps)
          | None => v
          end
      | _ => v
      end
  end.

(** [l.length === 0] *)
Definition is_nil {A} (l : list A) : bool :=
  match l with [] => true | _ => false end.

(** The slot of [node] for [method]: what [node[method]] reads. *)
Definition slot (node : value) (method : string) : value :=
  match get_prop node method with
  | Ok v => v
  | Throw _ => VUndef
  end.



(** An entry that is not a function, a string or an array. *)
Definition skippable (x : value) : Prop :=
  match x with
  | VFun _ | VStr _ | VArr _ => False
  | _ => True
  end.

(** The [this] of the not-found handler. *)
Definition notfound_this (method path : string) : this_t :=
  ThisValue (VObj [("method", VStr method); ("path", VStr path)]).

(** Induction over declarations, through the bodies of nested [path]
    calls. *)
Section decl_induction.

Variable P : decl -> Prop.
Hypothesis P_on : forall a, P (DOn a).
Hypothesis P_param : forall token matcher, P (DParam token matcher).
Hypothesis P_path : forall p ds, Forall P ds -> P (DPath p ds).

Fixpoint decl_nested_ind (d : decl) : P d :=
  match d with
  | DOn a => P_on a
  | DParam token matcher => P_param token matcher
  | DPath p ds =>
      P_path p ds
        ((fix all (l : list decl) : Forall P l :=
            match l with
            | [] => Forall_nil P
            | x :: t => Forall_cons x (decl_nested_ind x) (all t)
            end) ds)
  end.

End decl_induction.

Section Chains.

Variable host : RegExpHost.
Variable self : Router.
Variable method : string.
Variable path : string.


(** The call found something or raised. *)
Definition hit (x : res tresult) : Prop :=
  (exists f, x = Ok (TFns f)) \/ (exists e, x = Throw e).

End Chains.

(** The router with [strict] switched off, everything else the same. *)
Definition relaxed (self : Router) : Router :=
  mkRouter (params self) (routes self) (methods self) (scope self) (_methods self)
           (recurse self) (async self) (delimiter self) (VBool false)
           (notfound self) (resource self) (every self) (last self) (_invoked self).


(** ** The routers and handlers of the examples

    Built through the router's own methods, over the reference host. *)

Definition options_async_notfound (a nf : value) : options :=
  Build_options VUndef a VUndef VUndef nf VUndef VUndef VUndef VUndef.

Definition options_async_on (a hook : value) : options :=
  Build_options VUndef a VUndef VUndef VUndef VUndef VUndef VUndef hook.

(** [declare r ds]: the router [r] after the declarations [ds]. *)
Definition declare (r : Router) (ds : list decl) : Router :=
  fst (run_decls MiniRegExp.host ds r).

(** Handler 1 returns [false]; every other handler returns [undefined]. *)
Definition first_says_stop : oracle :=
  fun f _ _ => if Nat.eqb f 1 then Returns (VBool false) None else Returns VUndef None.

(** Every handler returns [undefined] and calls [next()]. *)
Definition all_go_on : oracle :=
  fun _ _ _ => Returns VUndef (Some VUndef).

(** [configure({on: h3}); on('/a', h1); on('/a', h2)] *)
Definition two_handlers_and_hook : Router :=
  declare (configure new_Router (options_async_on VUndef (VFun 3)))
          [DOn (OnRoute (PStr "/a") 1); DOn (OnRoute (PStr "/a") 2)].

(** [configure({async: a, on: h3}); on('on', '/a', 42)] *)
Definition number_route (a : value) : Router :=
  declare (configure new_Router (options_async_on a (VFun 3)))
          [DOn (OnMethod "on" (PStr "/a") (VNum 42))].


(** [path('/foo', function () { this.on('/bar', h1) })] *)
Definition nested_router : Router :=
  declare new_Router [DPath (PStr "/foo") [DOn (OnRoute (PStr "/bar") 1)]].


(** [param('id', matcher)] on a new router. *)
Definition id_router (matcher : string) : Router :=
  match param MiniRegExp.host "id" matcher new_Router with
  | Ok r => r
  | Throw _ => new_Router
  end.

(** ** Further vocabulary *)

(** Induction over values, through the elements of arrays. *)
Section value_induction.

Variable P : value -> Prop.
Hypothesis P_flat : forall v, isArray v = false -> P v.
Hypothesis P_arr : forall l, Forall P l -> P (VArr l).

Fixpoint value_nested_ind (v : value) : P v :=
  match v with
  | VArr l =>
      P_arr l
        ((fix all (l : list value) : Forall P l :=
            match l with
            | [] => Forall_nil P
            | x :: t => Forall_cons x (value_nested_ind x) (all t)
            end) l)
  | VUndef => P_flat VUndef eq_refl
  | VNull => P_flat VNull eq_refl
  | VBool b => P_flat (VBool b) eq_refl
  | VNum n => P_flat (VNum n) eq_refl
  | VStr s => P_flat (VStr s) eq_refl
  | VFun f => P_flat (VFun f) eq_refl
  | VObj ps => P_flat (VObj ps) eq_refl
  end.

End value_induction.

(** The calls of the functions [fs], in order, each on [thisArg] with the
    arguments [a]. *)
Definition calls_of (fs : list fid) (thisArg : this_t) (a : list value) : trace :=
  map (fun f => Build_call f thisArg a) fs.

(** The handler returns something other than [false]. *)
Definition goes_on (handler : oracle) (thisArg : this_t) (a : list value)
           (f : fid) : Prop :=
  exists v n, handler f thisArg a = Returns v n /\ is_false v = false.

(** The handler calls [next] with an argument that lets the series go
    on. *)
Definition calls_next (handler : oracle) (thisArg : this_t) (a : list value)
           (f : fid) : Prop :=
  exists v err, handler f thisArg a = Returns v (Some err)
                /\ truthy err = false /\ is_false err = false.

(** No handler raises, whatever it is called on. *)
Definition never_raises (handler : oracle) : Prop :=
  forall f thisArg a, exists v n, handler f thisArg a = Returns v n.

(** The key under which [param] registers a token: the token itself when
    it starts with a colon, the token after a colon otherwise. *)
Definition token_key (token : string) : string :=
  match token with
  | String ":" _ => token
  | _ => ":" ++ token
  end.

(** [params[key]] *)
Fixpoint param_fn (ps : params_t) (key : string) : option (string -> string) :=
  match ps with
  | [] => None
  | (k, f) :: t => if k =? key then Some f else param_fn t key
  end.




(** What the declaration methods leave alone: everything in the router
    but the table, the substitutions and the scope. *)
Definition settings (r : Router) :=
  (methods r, _methods r, recurse r, async r, delimiter r, strict r,
   notfound r, resource r, every r, last r, _invoked r).

(** The properties that [on(k1, f1)], [on(k1/k2, f2)], ... leave under a
    node: one key, leading to a node that holds the handler for [on] and
    the rest of the ladder. *)
Fixpoint ladder (steps : list (string * fid)) : props :=
  match steps with
  | [] => []
  | (k, f) :: rest => [(k, VObj (("on", VFun f) :: ladder rest))]
  end.

(** A node of the ladder: the handler it holds itself, if any, and the
    steps below it. *)
Definition rung (own_on : option fid) (steps : list (string * fid)) : value :=
  VObj (match own_on with Some f => [("on", VFun f)] | None => [] end
        ++ ladder steps)%list.

(** Along the keys [ks] the host compiles the pattern of every key and
    finds a match for it in the path [p]: a match that is not all of [p]
    for every key but the last, and all of [p], with the groups
    [groups], for the last. *)
Fixpoint descends (host : RegExpHost) (self : Router) (p regexp : string)
         (ks : list string) (groups : list value) : Prop :=
  match ks with
  | [] => False
  | k :: rest =>
      exists re m0 g,
        compile host ("^" ++ exact_of self regexp k) = Some re
        /\ exec host re p = Some (m0, g)
        /\ match rest with
           | [] => m0 = p /\ g = groups
           | _ :: _ =>
               m0 <> p /\ descends host self p (current_of self regexp k) rest groups
           end
  end.

(** A key that is none of the names [on], [before] and [after]. *)
Definition plain_key (k : string) : Prop :=
  k <> "on" /\ k <> "before" /\ k <> "after".

(** ** Further routers and handlers of the examples *)

(** Handler 2 calls [next] with an error; every other handler calls
    [next()]. *)
Definition second_fails : oracle :=
  fun f _ _ =>
    if Nat.eqb f 2 then Returns VUndef (Some (VStr "boom"))
    else Returns VUndef (Some VUndef).

Definition options_recurse (dir : value) : options :=
  Build_options dir VUndef VUndef VUndef VUndef VUndef VUndef VUndef VUndef.

(** [configure({async: true})] *)
Definition async_router : Router :=
  configure new_Router (options_async_on (VBool true) VUndef).

(** [on('on', [], 'name')]: the root slot holds a string. *)
Definition named_root_router : Router :=
  fst (insert "on" [] (VStr "name") new_Router).

(** [on('after', '/a', h7); on('/a', h1); on('/b', h2)], after a
    dispatch of [/a]. *)
Definition visited_router : Router :=
  fst (fst (dispatch MiniRegExp.host all_go_on 3 "on" "/a" VUndef
              (declare new_Router
                 [DOn (OnMethod "after" (PStr "/a") (VFun 7));
                  DOn (OnRoute (PStr "/a") 1);
                  DOn (OnRoute (PStr "/b") 2)])
              [])).

(** [configure({recurse: 'backward'}); on('/a', h1); on('/a/b', h2)] *)
Definition backward_router : Router :=
  declare (configure new_Router (options_recurse (VStr "backward")))
          [DOn (OnRoute (PStr "/a") 1); DOn (OnRoute (PStr "/a/b") 2)].

(** [extend(['get'])] on a new router. *)
Definition get_router : Router := fst (extend ["get"] new_Router).


(* ================================================================== *)
(** * Properties *)

(** ** Strings and property lists *)

Lemma append_nil_r (s : string) : s ++ "" = s.
Proof. induction s as [|c s IH]; simpl; [reflexivity | now rewrite IH]. Qed.

Lemma append_assoc (a b c : string) : (a ++ b) ++ c = a ++ (b ++ c).
Proof. induction a as [|x a IH]; simpl; [reflexivity | now rewrite IH]. Qed.

Lemma length_append (a b : string) :
  String.length (a ++ b) = String.length a + String.length b.
Proof. induction a as [|x a IH]; simpl; [reflexivity | now rewrite IH]. Qed.

Lemma prefix_refl (s : string) : String.prefix s s = true.
Proof.
  induction s as [|c s IH]; simpl; [reflexivity|].
  destruct (ascii_dec c c) as [_|n]; [exact IH | now elim n].
Qed.

Lemma drop_all (s : string) : Str.drop (String.length s) s = "".
Proof. induction s as [|c s IH]; simpl; [reflexivity | exact IH]. Qed.

Lemma contains_char_append (c : ascii) (a b : string) :
  Str.contains_char c (a ++ b) = Str.contains_char c a || Str.contains_char c b.
Proof.
  induction a as [|x a IH]; simpl; [reflexivity|].
  now rewrite IH, orb_assoc.
Qed.

(** A replacement without [$] is inserted as it is. *)
Lemma get_substitution_plain (m b a repl : string) :
  Str.contains_char "$" repl = false ->
  Str.get_substitution m b a repl = repl.
Proof.
  induction repl as [|c r IH]; simpl; [reflexivity|].
  intros H. apply orb_false_iff in H as [Hc Hr].
  rewrite Hc. now rewrite IH.
Qed.

(** Text without a colon holds no token and is skipped by the scan. *)
Lemma scan_tokens_skip (pre rest : string) :
  Str.contains_char ":" pre = false ->
  Str.scan_tokens None (pre ++ rest) = Str.scan_tokens None rest.
Proof.
  induction pre as [|c pre IH]; simpl; [reflexivity|].
  intros H. apply orb_false_iff in H as [Hc Hr].
  rewrite Hc. now apply IH.
Qed.

(** Once a colon is read, every character up to the next slash joins the
    token. *)
Lemma scan_tokens_run (t name : string) :
  Str.contains_char "/" name = false ->
  Str.scan_tokens (Some t) name = Str.emit (Some (t ++ name)).
Proof.
  revert t. induction name as [|c name IH]; intros t H; simpl.
  - now rewrite append_nil_r.
  - simpl in H. apply orb_false_iff in H as [Hc Hr].
    rewrite Hc, IH by assumption.
    now rewrite append_assoc.
Qed.

Lemma match_tokens_single (pre name : string) :
  Str.contains_char ":" pre = false ->
  name <> "" ->
  Str.contains_char "/" name = false ->
  Str.match_tokens (pre ++ ":" ++ name) = Some [":" ++ name].
Proof.
  intros Hpre Hne Hname. unfold Str.match_tokens.
  rewrite scan_tokens_skip by assumption.
  simpl. rewrite scan_tokens_run by assumption.
  destruct name as [|c name]; [now elim Hne|]. reflexivity.
Qed.

Lemma prefix_append (a b : string) : String.prefix a (a ++ b) = true.
Proof.
  induction a as [|c a IH]; simpl.
  - now destruct b.
  - destruct (ascii_dec c c) as [_|n]; [exact IH | now elim n].
Qed.

Lemma drop_append (a b : string) : Str.drop (String.length a) (a ++ b) = b.
Proof. induction a as [|c a IH]; simpl; [reflexivity | exact IH]. Qed.

Lemma split_first_here (pat rest : string) :
  Str.split_first pat (pat ++ rest) = Some ("", rest).
Proof.
  pose proof (prefix_append pat rest) as P.
  pose proof (drop_append pat rest) as D.
  destruct (pat ++ rest) as [|c s]; cbn [Str.split_first]; now rewrite P, D.
Qed.

Lemma prefix_head_differs (a c : ascii) (p s : string) :
  (c =? a)%char = false -> String.prefix (String a p) (String c s) = false.
Proof.
  intros H. cbn [String.prefix].
  destruct (ascii_dec a c) as [e|_]; [|reflexivity].
  subst c. now rewrite Ascii.eqb_refl in H.
Qed.

(** The first occurrence of a token that follows colon-free text is at
    the end of that text. *)
Lemma split_first_after (pre name : string) :
  Str.contains_char ":" pre = false ->
  Str.split_first (":" ++ name) (pre ++ ":" ++ name) = Some (pre, "").
Proof.
  change (":" ++ name) with (String ":" name).
  induction pre as [|c pre IH]; intros H.
  - pose proof (split_first_here (String ":" name) "") as E.
    now rewrite append_nil_r in E.
  - simpl in H. apply orb_false_iff in H as [Hc Hr].
    change ((String c pre) ++ String ":" name) with (String c (pre ++ String ":" name)).
    cbn [Str.split_first].
    rewrite prefix_head_differs by assumption.
    now rewrite (IH Hr).
Qed.

(* ------------------------------------------------------------------ *)
(** ** The pattern compiler *)

Lemma paramify_loop_find (tok : string) (params : params_t) (m0 : string) :
  paramify_loop tok params m0 =
    match find (changes tok) params with
    | Some kv => snd kv tok
    | None => match params with [] => m0 | _ => tok end
    end.
Proof.
  revert m0. induction params as [|[k f] rest IH]; intros m0; simpl.
  - reflexivity.
  - unfold changes at 1. simpl.
    destruct (f tok =? tok) eqn:E; simpl.
    + rewrite IH. apply String.eqb_eq in E.
      destruct (find (changes tok) rest); [reflexivity|].
      destruct rest; [exact E | reflexivity].
    + reflexivity.
Qed.

Lemma paramifyString_find (tok : string) (params : params_t) :
  paramifyString tok params =
    match find (changes tok) params with
    | Some kv => snd kv tok
    | None => default_capture
    end.
Proof.
  unfold paramifyString. rewrite paramify_loop_find.
  destruct (find (changes tok) params) as [kv|] eqn:F.
  - apply find_some in F as [_ C]. unfold changes in C.
    apply negb_true_iff in C. now rewrite C.
  - destruct params; now rewrite String.eqb_refl.
Qed.

Lemma find_changes_first (tok : string) (pre' post : params_t) kv :
  Forall (fun p => snd p tok = tok) pre' ->
  snd kv tok <> tok ->
  find (changes tok) (pre' ++ kv :: post)%list = Some kv.
Proof.
  intros Hpre Hkv. induction Hpre as [|p l Hp _ IH]; simpl.
  - unfold changes. apply String.eqb_neq in Hkv. now rewrite Hkv.
  - unfold changes at 1. apply String.eqb_eq in Hp. now rewrite Hp.
Qed.

Lemma find_changes_none (tok : string) (params : params_t) :
  Forall (fun p => snd p tok = tok) params ->
  find (changes tok) params = None.
Proof.
  intros Hall. induction Hall as [|p l Hp _ IH]; simpl; [reflexivity|].
  unfold changes at 1. apply String.eqb_eq in Hp. now rewrite Hp.
Qed.

Lemma regifyString_single (params : params_t) (pre name : string) :
  Str.contains_char ":" pre = false ->
  Str.contains_char "*" pre = false ->
  name <> "" ->
  Str.contains_char "/" name = false ->
  Str.contains_char "*" name = false ->
  regifyString (pre ++ ":" ++ name) params =
    pre ++ Str.get_substitution (":" ++ name) pre "" (paramifyString (":" ++ name) params).
Proof.
  intros Hc Hs Hne Hsl Hsn. unfold regifyString.
  assert (Str.contains_char "*" (pre ++ ":" ++ name) = false) as ->.
  { rewrite contains_char_append, Hs. simpl. exact Hsn. }
  rewrite match_tokens_single by assumption.
  cbn [fold_left]. unfold Str.replace_first.
  rewrite split_first_after by assumption.
  now rewrite append_nil_r.
Qed.

(** C6.  Compiling a segment made of colon-free text followed by one
    [:token] tries the registered substitutions in registration order: the
    replacement is the output of the first one that changes the token, and
    the default capture group when none does; the compiled segment is the
    text followed by that replacement (written out as it is whenever it
    holds no [$]). *)
Theorem token_takes_first_changing_substitution :
  forall (params : params_t) (pre name : string),
    Str.contains_char ":" pre = false ->
    Str.contains_char "*" pre = false ->
    name <> "" ->
    Str.contains_char "/" name = false ->
    Str.contains_char "*" name = false ->
    let tok := ":" ++ name in
    let repl :=
      match find (changes tok) params with
      | Some kv => snd kv tok
      | None => default_capture
      end in
    paramifyString tok params = repl
    /\ (forall pre' kv post,
          params = (pre' ++ kv :: post)%list ->
          Forall (fun p => snd p tok = tok) pre' ->
          snd kv tok <> tok ->
          repl = snd kv tok)
    /\ (Forall (fun p => snd p tok = tok) params -> repl = default_capture)
    /\ regifyString (pre ++ tok) params = pre ++ Str.get_substitution tok pre "" repl
    /\ (Str.contains_char "$" repl = false ->
        regifyString (pre ++ tok) params = pre ++ repl).
Proof.
  intros params pre name Hc Hs Hne Hsl Hsn tok repl.
  assert (paramifyString tok params = repl) as P by apply paramifyString_find.
  assert (regifyString (pre ++ tok) params = pre ++ Str.get_substitution tok pre "" repl) as R.
  { rewrite <- P. now apply regifyString_single. }
  split; [exact P|]. split; [|split; [|split]].
  - intros pre' kv post -> Hpre Hkv. subst repl.
    now rewrite find_changes_first.
  - intros Hall. subst repl. now rewrite find_changes_none.
  - exact R.
  - intros Hd. rewrite R. now rewrite get_substitution_plain.
Qed.

(** *** Recompiling a compiled pattern *)

Lemma inert_colon_free (s : string) :
  Str.contains_char ":" s = false -> inert s = true.
Proof.
  induction s as [|c s IH]; simpl; [reflexivity|].
  intros H. apply orb_false_iff in H as [Hc Hs]. rewrite Hc. now apply IH.
Qed.

Lemma inert_append (a b : string) :
  inert a = true -> inert b = true -> inert (a ++ b) = true.
Proof.
  induction a as [|c a IH]; simpl; [trivial|].
  intros Ha Hb. destruct (Ascii.eqb c ":").
  - destruct a as [|d a']; [discriminate|].
    apply andb_true_iff in Ha as [Hd Ha].
    specialize (IH Ha Hb).
    change (String d a' ++ b) with (String d (a' ++ b)) in *.
    cbn iota. now rewrite Hd, IH.
  - now apply IH.
Qed.

Lemma scan_tokens_inert (d x : string) :
  inert d = true ->
  Str.scan_tokens None (d ++ x) = Str.scan_tokens None x.
Proof.
  induction d as [|c d IH]; simpl; [reflexivity|].
  intros H. destruct (Ascii.eqb c ":") eqn:Ec.
  - destruct d as [|e d']; [discriminate|].
    apply andb_true_iff in H as [He Hd].
    specialize (IH Hd). simpl append in *. simpl. rewrite He. simpl.
    apply Ascii.eqb_eq in He. subst e. simpl in IH. exact IH.
  - now apply IH.
Qed.

Lemma prefix_second_differs (a c d : ascii) (p s : string) :
  (d =? c)%char = false ->
  String.prefix (String a (String c p)) (String a (String d s)) = false.
Proof.
  intros H. cbn [String.prefix].
  destruct (ascii_dec a a) as [_|n]; [|now elim n].
  destruct (ascii_dec c d) as [e|_]; [|reflexivity].
  subst d. now rewrite Ascii.eqb_refl in H.
Qed.

Lemma split_first_inert (d t r : string) :
  inert d = true -> is_token t ->
  Str.split_first t (d ++ t ++ r) = Some (d, r).
Proof.
  intros Hd (c & run & -> & Hc & _).
  induction d as [|a d IH].
  - exact (split_first_here (String ":" (String c run)) r).
  - simpl in Hd. change (String a d ++ ?x) with (String a (d ++ x)).
    cbn [Str.split_first].
    destruct (Ascii.eqb a ":") eqn:Ea.
    + destruct d as [|e d']; [discriminate|].
      apply andb_true_iff in Hd as [He Hd].
      apply Ascii.eqb_eq in Ea. subst a.
      change (String e d' ++ ?x) with (String e (d' ++ x)).
      rewrite prefix_second_differs.
      * change (String e (d' ++ ?x)) with (String e d' ++ x).
        now rewrite (IH Hd).
      * apply Ascii.eqb_eq in He. subst e. rewrite Ascii.eqb_sym. exact Hc.
    + rewrite prefix_head_differs by exact Ea.
      now rewrite (IH Hd).
Qed.

Lemma span_run_spec (s : string) :
  let (run, rest) := span_run s in
  s = run ++ rest /\ Str.contains_char "/" run = false
  /\ String.length rest <= String.length s
  /\ forall t, Str.scan_tokens (Some t) s =
               app (Str.emit (Some (t ++ run))) (Str.scan_tokens None rest).
Proof.
  induction s as [|c s IH]; simpl.
  - repeat split; auto. intros t. now rewrite append_nil_r, app_nil_r.
  - destruct (Ascii.eqb c "/") eqn:Ec.
    + repeat split; auto. intros t. rewrite append_nil_r. simpl.
      apply Ascii.eqb_eq in Ec. subst c. reflexivity.
    + destruct (span_run s) as [run rest]. destruct IH as (E & Hr & Hl & Hs).
      repeat split.
      * simpl. now rewrite <- E.
      * simpl. now rewrite Ec.
      * lia.
      * intros t. rewrite Hs. now rewrite append_assoc.
Qed.

(** Either the scan finds nothing, or the text is an inert part, a first
    token, and a shorter rest. *)
Lemma scan_tokens_decompose (n : nat) (s : string) :
  String.length s <= n ->
  Str.scan_tokens None s = []
  \/ exists g t s',
       s = g ++ t ++ s' /\ inert g = true /\ is_token t
       /\ String.length s' < String.length s
       /\ Str.scan_tokens None s = t :: Str.scan_tokens None s'.
Proof.
  revert s. induction n as [|n IH]; intros s Hn.
  - destruct s; [now left | simpl in Hn; lia].
  - destruct s as [|c s]; [now left|]. simpl in Hn.
    destruct (Ascii.eqb c ":") eqn:Ec.
    + apply Ascii.eqb_eq in Ec. subst c.
      destruct s as [|d s]; [now left|].
      destruct (Ascii.eqb d "/") eqn:Ed.
      * apply Ascii.eqb_eq in Ed. subst d. simpl in Hn.
        destruct (IH s ltac:(lia)) as [E | (g & t & s' & -> & Hg & Ht & Hl & Hs)].
        -- left. simpl. exact E.
        -- right. exists (String ":" (String "/" g)), t, s'.
           repeat split; auto. simpl. lia.
      * right. pose proof (span_run_spec s) as S.
        destruct (span_run s) as [run rest]. destruct S as (-> & Hr & Hl & Hs).
        exists "", (String ":" (String d run)), rest.
        repeat split.
        -- exists d, run. auto.
        -- simpl. lia.
        -- simpl. rewrite Ed. rewrite Hs. reflexivity.
    + destruct (IH s ltac:(lia)) as [E | (g & t & s' & -> & Hg & Ht & Hl & Hs)].
      * left. simpl. now rewrite Ec.
      * right. exists (String c g), t, s'.
        repeat split; auto.
        -- simpl. now rewrite Ec.
        -- simpl. lia.
        -- simpl. now rewrite Ec.
Qed.

Lemma clean_inert (s : string) : clean s = true -> inert s = true.
Proof.
  unfold clean. intros H.
  apply andb_true_iff in H as [H _]. apply andb_true_iff in H as [H _].
  apply negb_true_iff in H. now apply inert_colon_free.
Qed.

Lemma clean_plain (s : string) : clean s = true -> Str.contains_char "$" s = false.
Proof.
  unfold clean. intros H. apply andb_true_iff in H as [_ H].
  now apply negb_true_iff in H.
Qed.

Lemma clean_star_free (s : string) : clean s = true -> Str.contains_char "*" s = false.
Proof.
  unfold clean. intros H.
  apply andb_true_iff in H as [H _]. apply andb_true_iff in H as [_ H].
  now apply negb_true_iff in H.
Qed.

(** Replacing the tokens of [s] one after the other, behind an inert
    text [d], leaves a text without tokens and without wildcards. *)
Lemma replace_tokens_settles (repl : string -> string) (n : nat) :
  forall (s d : string),
    String.length s <= n ->
    inert d = true ->
    Str.contains_char "*" (d ++ s) = false ->
    Forall (fun c => clean (repl c) = true) (Str.scan_tokens None s) ->
    let out :=
      fold_left (fun str c => Str.replace_first str c (repl c))
                (Str.scan_tokens None s) (d ++ s) in
    Str.scan_tokens None out = [] /\ Str.contains_char "*" out = false.
Proof.
  induction n as [|n IH]; intros s d Hn Hd Hstar Hclean.
  - destruct s; [|simpl in Hn; lia]. simpl. rewrite append_nil_r in *.
    split; [|exact Hstar].
    rewrite <- (append_nil_r d). now rewrite scan_tokens_inert.
  - destruct (scan_tokens_decompose (String.length s) s (Nat.le_refl _))
      as [E | (g & t & s' & -> & Hg & Ht & Hl & Hs)].
    + rewrite E. simpl. split; [|exact Hstar].
      now rewrite scan_tokens_inert.
    + rewrite Hs in *. cbn [fold_left].
      inversion Hclean as [|? ? Ct Crest]; subst.
      assert (Str.replace_first (d ++ g ++ t ++ s') t (repl t)
              = (d ++ g ++ repl t) ++ s') as R.
      { unfold Str.replace_first.
        rewrite <- append_assoc, split_first_inert; auto using inert_append.
        rewrite get_substitution_plain by now apply clean_plain.
        now rewrite !append_assoc. }
      rewrite R. rewrite !length_append in Hn.
      apply IH; auto.
      * destruct Ht as (c & run & -> & _). simpl in Hn. lia.
      * auto using inert_append, clean_inert.
      * rewrite !contains_char_append in *.
        apply orb_false_iff in Hstar as [Hd' Hstar].
        apply orb_false_iff in Hstar as [Hg' Hstar].
        apply orb_false_iff in Hstar as [_ Hs'].
        now rewrite Hd', Hg', Hs', (clean_star_free _ Ct).
Qed.

Lemma wildcard_capture_star_free : Str.contains_char "*" wildcard_capture = false.
Proof. reflexivity. Qed.

Lemma expand_wildcards_star_free (s : string) :
  Str.contains_char "*" (expand_wildcards s) = false.
Proof.
  unfold expand_wildcards. destruct (Str.contains_char "*" s) eqn:E; [|exact E].
  clear E. induction s as [|c s IH]; [reflexivity|].
  cbn [Str.replace_char_all]. destruct (Ascii.eqb c "*") eqn:Ec.
  - now rewrite contains_char_append, wildcard_capture_star_free.
  - cbn [Str.contains_char]. now rewrite Ec.
Qed.

Lemma regifyString_unfold (s : string) (p : params_t) :
  regifyString s p =
    fold_left (fun str c => Str.replace_first str c (paramifyString c p))
              (compiled_tokens s) (expand_wildcards s).
Proof.
  unfold regifyString, compiled_tokens, Str.match_tokens.
  fold (expand_wildcards s).
  now destruct (Str.scan_tokens None (expand_wildcards s)).
Qed.

(** A text without wildcards and without tokens compiles to itself. *)
Lemma regifyString_fixed (t : string) (p : params_t) :
  Str.contains_char "*" t = false ->
  Str.scan_tokens None t = [] ->
  regifyString t p = t.
Proof.
  intros Hs Ht. rewrite regifyString_unfold.
  unfold compiled_tokens, expand_wildcards. now rewrite Hs, Ht.
Qed.

Lemma regifyString_settles (s : string) (p : params_t) :
  Forall (fun tok => clean (paramifyString tok p) = true) (compiled_tokens s) ->
  regifyString (regifyString s p) p = regifyString s p.
Proof.
  intros H.
  pose proof (replace_tokens_settles (fun c => paramifyString c p)
                (String.length (expand_wildcards s)) (expand_wildcards s) ""
                (Nat.le_refl _) eq_refl (expand_wildcards_star_free s) H) as [T S].
  change ("" ++ expand_wildcards s) with (expand_wildcards s) in T, S.
  fold (compiled_tokens s) in T, S.
  rewrite <- regifyString_unfold in T, S.
  now apply regifyString_fixed.
Qed.

(** With no substitution registered every token becomes the default
    group, so compiling is idempotent on every segment. *)
Corollary regify_idempotent_without_params (s : string) :
  regifyString (regifyString s []) [] = regifyString s [].
Proof.
  apply regifyString_settles.
  apply Forall_forall. intros tok _.
  unfold paramifyString. simpl. now rewrite String.eqb_refl.
Qed.

(** C9, as amended.  Compiling is idempotent on every segment whose
    tokens are all replaced by text free of [*], [:] and [$]:
    recompiling the compiled segment gives the same string. *)
Theorem regify_idempotent_on_clean_replacements :
  forall (s : string) (p : params_t),
    Forall (fun tok => clean (paramifyString tok p) = true) (compiled_tokens s) ->
    regifyString (regifyString s p) p = regifyString s p.
Proof. exact regifyString_settles. Qed.

(* ------------------------------------------------------------------ *)
(** ** Insertion *)


Lemma update_same (k : string) (v : value) (ps : props) :
  lookup k ps = Some v -> update k v ps = ps.
Proof.
  induction ps as [|[k' v'] t IH]; simpl; [reflexivity|].
  destruct (k' =? k) eqn:E.
  - intros [= ->]. apply String.eqb_eq in E. now subst.
  - intros H. now rewrite IH.
Qed.




Lemma obj_set_same (k : string) (v : value) (ps : props) :
  lookup k ps = Some v -> obj_set k v ps = ps.
Proof.
  intros H. unfold obj_set, has_key. rewrite H. now apply update_same.
Qed.



(** [insert] walks down existing plain objects and runs its last step on
    the node it reaches; the result is written back along the way. *)
Lemma insert_at_descend (ps : params_t) (method : string) (route : value)
      (last_part : string) (init : list string) :
  forall (root : bool) (parent : value) (props0 : props),
    node_at parent (map (compile_part ps) init) = Some (VObj props0) ->
    insert_at ps root method (init ++ [last_part])%list route parent =
      let (node', out) :=
        insert_last (root && is_nil init) method
                    (Some (compile_part ps last_part)) route (VObj props0) in
      (put parent (map (compile_part ps) init) node', out).
Proof.
  induction init as [|p init IH]; intros root parent props0 H.
  - simpl in H. injection H as ->. cbn [app insert_at map put is_nil].
    rewrite andb_true_r.
    now destruct (insert_last root method (Some (compile_part ps last_part)) route (VObj props0)).
  - simpl in H. destruct parent as [| | | | | | |pps]; try discriminate.
    destruct (lookup (compile_part ps p) pps) as [child|] eqn:E; [|discriminate].
    assert (truthy child = true) as T.
    { destruct init; simpl in H.
      - now injection H as ->.
      - destruct child; try discriminate. reflexivity. }
    cbn [app insert_at].
    destruct (init ++ [last_part])%list as [|q rest] eqn:EL.
    { now destruct init. }
    unfold own, or_else. rewrite E, T.
    rewrite (obj_set_same _ _ _ E).
    rewrite (IH false child props0 H).
    rewrite andb_false_r. cbn [andb map put]. rewrite E.
    now destruct (insert_last false method (Some (compile_part ps last_part)) route (VObj props0)).
Qed.





Lemma set_routes_same (r : Router) : set_routes r (routes r) = r.
Proof. now destruct r. Qed.

Lemma filter_nonempty_last (path : list string) (last_part : string) :
  nonempty last_part = true ->
  filter nonempty (path ++ [last_part])%list = (filter nonempty path ++ [last_part])%list.
Proof. intros H. rewrite filter_app. simpl. now rewrite H. Qed.

(** A last segment that the parent node does not have yet gets a fresh
    node holding the route. *)
Lemma insert_creates_node (r : Router) (method : string) (path : list string)
      (last_part : string) (route : value) (pps : props) :
  let keys := map (compile_part (params r)) (filter nonempty path) in
  let key := compile_part (params r) last_part in
  nonempty last_part = true -> key <> "" ->
  node_at (routes r) keys = Some (VObj pps) ->
  lookup key pps = None ->
  insert method (path ++ [last_part])%list route r =
    (set_routes r (put (routes r) keys
                       (VObj (obj_set key (VObj [(method, route)]) pps))),
     Normal).
Proof.
  intros keys key Hne Hkey Hnode Hfresh.
  unfold insert. rewrite filter_nonempty_last by assumption.
  rewrite (insert_at_descend (params r) method route last_part
             (filter nonempty path) true (routes r) pps Hnode).
  unfold insert_last. cbn [part_falsy part_key]. fold key.
  apply String.eqb_neq in Hkey. rewrite Hkey. cbn [andb].
  assert (own pps key = VUndef) as O by (unfold own; now rewrite Hfresh).
  cbv zeta. now rewrite O.
Qed.


(* ------------------------------------------------------------------ *)
(** ** Invocation *)

Section InvokeFacts.

Variable handler : oracle.
Variable self : Router.

(** [_every] stops at an element for which the iterator answers
    [false]. *)
Lemma every_stops_at_false {A} (iterator : A -> trace -> trace * res value)
      (x : A) (rest : list A) (tr tr' : trace) :
  iterator x tr = (tr', Ok (VBool false)) ->
  _every iterator (x :: rest) tr = (tr', Ok VUndef).
Proof. intros H. simpl. now rewrite H. Qed.

(** [_every] goes past an element on which the iterator does nothing. *)
Lemma every_skips {A} (iterator : A -> trace -> trace * res value)
      (x : A) (pre rest : list A) :
  (forall tr, iterator x tr = (tr, Ok VUndef)) ->
  forall tr,
    _every iterator (pre ++ x :: rest)%list tr = _every iterator (pre ++ rest)%list tr.
Proof.
  intros Hx. induction pre as [|y pre IH]; intros tr; simpl.
  - now rewrite Hx.
  - destruct (iterator y tr) as [tr' [v|e]]; [|reflexivity].
    destruct (is_false v); [reflexivity | apply IH].
Qed.

(** In a synchronous walk such an entry is passed over: the run is the
    run of the list without it. *)
Lemma invoke_sync_skips (thisArg : this_t) (caps : option (list value))
      (x : value) (pre rest : list value) (tr : trace) :
  skippable x ->
  invoke_sync handler self {| items := (pre ++ x :: rest)%list; captures := caps |} thisArg tr
  = invoke_sync handler self {| items := (pre ++ rest)%list; captures := caps |} thisArg tr.
Proof.
  intros Hx. unfold invoke_sync. cbn [items captures_or_null captures].
  apply every_skips. intros t. destruct x; simpl in Hx; try contradiction; reflexivity.
Qed.

(** The same inside a nested list. *)
Lemma apply_skips_in_list (thisArg : this_t) (a : list value)
      (x : value) (pre rest : list value) (tr : trace) :
  skippable x ->
  apply handler self thisArg a (VArr (pre ++ x :: rest)%list) tr
  = apply handler self thisArg a (VArr (pre ++ rest)%list) tr.
Proof.
  intros Hx. cbn [apply].
  apply every_skips. intros t. destruct x; simpl in Hx; try contradiction; reflexivity.
Qed.

(** In a flat run-list of callables, one that returns [false] ends the
    walk: none of the entries after it is called. *)
Lemma invoke_sync_stops_at_false (thisArg : this_t) (caps : option (list value))
      (h : fid) (rest : list value) (tr : trace) (n : option value) :
  let fns := {| items := VFun h :: rest; captures := caps |} in
  handler h thisArg (captures_or_null fns) = Returns (VBool false) n ->
  invoke_sync handler self fns thisArg tr
  = ((tr ++ [Build_call h thisArg (captures_or_null fns)])%list, Ok VUndef).
Proof.
  intros fns H. unfold invoke_sync. cbn [items].
  apply every_stops_at_false. cbn [apply]. unfold call_fn. now rewrite H.
Qed.

(** In an asynchronous walk an entry that is not a function ends the
    series without a call to the final callback. *)
Lemma invoke_async_stalls (thisArg : this_t) (caps : option (list value))
      (x : value) (rest : list value) (tr : trace) :
  (forall f, x <> VFun f) ->
  invoke_async handler {| items := x :: rest; captures := caps |} thisArg tr
  = (tr, Ok Stalled).
Proof.
  intros Hx. unfold invoke_async, _asyncEverySeries. cbn [items iterate].
  destruct x; try reflexivity. now elim (Hx f).
Qed.

(** A function in a list without [captures] cannot be called
    asynchronously. *)
Lemma invoke_async_without_captures (thisArg : this_t)
      (f : fid) (rest : list value) (tr : trace) :
  invoke_async handler {| items := VFun f :: rest; captures := None |} thisArg tr
  = (tr, Throw (TypeError "Cannot read property 'concat' of undefined")).
Proof. reflexivity. Qed.

End InvokeFacts.

(* ------------------------------------------------------------------ *)
(** ** Traversal and dispatch *)

(** C2.  When the path is the bare delimiter and the root node holds a
    truthy value for the method, [traverse] answers at once, whatever the
    host's regular expressions do and however little stack is left: one
    layer made of the root's [before] and method handlers (the absent
    ones dropped), the root's [after] handler as the after-layer, and no
    captures. *)
Theorem traverse_root_short_circuit :
  forall (host : RegExpHost) (self : Router) (depth : nat)
         (method : string) (routes : value) (regexp : string) (h : value),
    get_prop routes method = Ok h ->
    truthy h = true ->
    traverse host self depth method (delimiter self) routes regexp =
      Ok (TFns {| layers := [VArr (filter_Boolean [slot routes "before"; h])];
                  after := filter_Boolean [slot routes "after"];
                  fn_captures := [] |}).
Proof.
  intros host self depth method routes regexp h Hget Hh.
  assert (forall k, get_prop routes k = Ok (slot routes k)) as G.
  { intros k. unfold slot. destruct routes; try discriminate; reflexivity. }
  destruct depth; cbn [traverse]; unfold traverse_body;
    rewrite String.eqb_refl, Hget; cbn [bind andb]; rewrite Hh;
    unfold on_layer, after_layer; rewrite Hget, !G; reflexivity.
Qed.

Section DispatchFacts.

Variable host : RegExpHost.
Variable handler : oracle.

(** A synchronous router that finds no route returns [false]; a
    not-found handler that is a function is called once, on
    [{method, path}] and without arguments, and nothing else is
    called. *)
Lemma dispatch_unmatched_sync (depth : nat) (method path : string)
      (callback : value) (self : Router) (tr : trace) :
  truthy (async self) = false ->
  traverse host self depth method path (routes self) "" = Ok TFalse ->
  let self' := set_last_invoked self (VArr []) (VBool true) in
  dispatch host handler depth method path callback self tr =
    match notfound self with
    | VFun f =>
        let c := Build_call f (notfound_this method path) [] in
        match handler f (notfound_this method path) [] with
        | Returns _ _ => (self', (tr ++ [c])%list, Ok false)
        | Raises v => (self', (tr ++ [c])%list, Throw (Thrown v))
        end
    | _ => (self', tr, Ok false)
    end.
Proof.
  intros Hsync Hnone self'. unfold dispatch. rewrite Hnone.
  subst self'. unfold set_last_invoked.
  cbn [notfound _invoked last params routes methods scope _methods recurse
       async delimiter strict resource every].
  destruct (notfound self) eqn:N; cbn [typeof]; try reflexivity.
  unfold invoke. cbn [async]. rewrite Hsync.
  unfold invoke_sync. cbn [items _every apply captures_or_null captures].
  unfold call_fn, notfound_this.
  destruct (handler f _ []) as [v n|v]; [|reflexivity].
  now destruct (is_false v).
Qed.

(** An asynchronous router that finds no route and has a not-found
    handler raises a [TypeError] before the handler is called: the list
    [[this.notfound]] has no [captures]. *)
Lemma dispatch_unmatched_async (depth : nat) (method path : string)
      (callback : value) (self : Router) (tr : trace) (f : fid) :
  truthy (async self) = true ->
  notfound self = VFun f ->
  traverse host self depth method path (routes self) "" = Ok TFalse ->
  dispatch host handler depth method path callback self tr =
    (set_last_invoked self (VArr []) (VBool true), tr,
     Throw (TypeError "Cannot read property 'concat' of undefined")).
Proof.
  intros Hasync N Hnone. unfold dispatch. rewrite Hnone.
  unfold set_last_invoked.
  cbn [notfound _invoked last params routes methods scope _methods recurse
       async delimiter strict resource every].
  rewrite N. cbn [typeof].
  unfold invoke. cbn [async]. rewrite Hasync. reflexivity.
Qed.

End DispatchFacts.

(* ------------------------------------------------------------------ *)
(** ** Declaration scopes *)

Section ScopeFacts.

Variable host : RegExpHost.

Lemma insert_scope (method : string) (path : list string) (route : value) (r : Router) :
  scope (fst (insert method path route r)) = scope r.
Proof.
  unfold insert.
  now destruct (insert_at (params r) true method (filter nonempty path) route (routes r)).
Qed.

Lemma on1_scope (method path : string) (route : value) (r : Router) :
  scope (fst (on1 host method path route r)) = scope r.
Proof.
  unfold on1. destruct (split_path host r path); [apply insert_scope | reflexivity].
Qed.

Lemma on_each_scope (ms : list string) (path : string) (route : value) :
  forall r, scope (fst (on_each host ms path route r)) = scope r.
Proof.
  induction ms as [|m ms IH]; intros r; simpl; [reflexivity|].
  pose proof (on1_scope m path route r) as H.
  destruct (on1 host m path route r) as [r' [|e|]]; simpl in *.
  - now rewrite IH.
  - exact H.
  - exact H.
Qed.

Lemma on_scope (a : on_args) (r : Router) :
  scope (fst (on host a r)) = scope r.
Proof.
  destruct a; simpl; auto using on1_scope, on_each_scope.
Qed.

(** Running a [routesFn] inside [path] is [run_decls]. *)
Lemma run_decl_path (p : path_arg) (ds : list decl) (self : Router) :
  run_decl host (DPath p ds) self =
    match split_path host self (path_string p) with
    | Throw e => (self, Abrupt e)
    | Ok parts =>
        match run_decls host ds (set_scope self (scope self ++ parts)%list) with
        | (self', Normal) =>
            (set_scope self' (splice (scope self') (List.length (scope self))
                                     (List.length parts)), Normal)
        | (self', out) => (self', out)
        end
    end.
Proof.
  cbn [run_decl]. destruct (split_path host self (path_string p)) as [parts|e];
    [|reflexivity].
  match goal with
  | |- match ?f ds ?s with _ => _ end = _ =>
      assert (forall l s', f l s' = run_decls host l s') as E
  end.
  { induction l as [|d l IH]; intros s'; simpl; [reflexivity|].
    destruct (run_decl host d s') as [s'' [|e|]]; [apply IH | reflexivity | reflexivity]. }
  rewrite E.
  now destruct (run_decls host ds (set_scope self (scope self ++ parts)%list))
    as [s1 [|e|]].
Qed.

Lemma splice_appended {A} (l parts : list A) :
  splice (l ++ parts)%list (List.length l) (List.length parts) = l.
Proof.
  unfold splice.
  rewrite firstn_app, firstn_all, Nat.sub_diag, firstn_O, app_nil_r.
  rewrite <- length_app, skipn_all. apply app_nil_r.
Qed.

(** Every declaration that returns leaves the scope as it found it. *)
Lemma run_decl_scope (d : decl) :
  forall self self',
    run_decl host d self = (self', Normal) -> scope self' = scope self.
Proof.
  induction d as [a|token matcher|p ds IH] using decl_nested_ind; intros self self' H.
  - cbn [run_decl] in H. rewrite <- (on_scope a self). now rewrite H.
  - cbn [run_decl] in H. unfold param in H.
    destruct (new_RegExp host _) as [re|e]; simpl in H; [|discriminate].
    now injection H as <-.
  - rewrite run_decl_path in H.
    destruct (split_path host self (path_string p)) as [parts|e]; [|discriminate].
    assert (forall s s', run_decls host ds s = (s', Normal) -> scope s' = scope s) as Hds.
    { clear H. induction IH as [|d l Hd _ IHl]; intros s s' H; simpl in H.
      - now injection H as <-.
      - destruct (run_decl host d s) as [s1 [|e|]] eqn:E; [|discriminate|discriminate].
        rewrite (IHl _ _ H). now apply Hd. }
    destruct (run_decls host ds _) as [s1 [|e|]] eqn:E; [|discriminate|discriminate].
    injection H as <-. apply Hds in E. cbn [scope set_scope] in *.
    rewrite E. apply splice_appended.
Qed.

Lemma run_decls_scope (ds : list decl) :
  forall self self',
    run_decls host ds self = (self', Normal) -> scope self' = scope self.
Proof.
  induction ds as [|d ds IH]; intros s s' H; simpl in H.
  - now injection H as <-.
  - destruct (run_decl host d s) as [s1 [|e|]] eqn:E; [|discriminate|discriminate].
    rewrite (IH _ _ H). exact (run_decl_scope d s s1 E).
Qed.

End ScopeFacts.


(* ------------------------------------------------------------------ *)
(** ** Strict and non-strict matching *)

Section MatchFacts.

Variable host : RegExpHost.
Variable self : Router.
Variable method : string.
Variable path : string.


Section Loop.

Variable rec : value -> string -> res tresult.




End Loop.


Lemma hit_Throw (e : exn) : hit (Throw e).
Proof. right. now exists e. Qed.

Lemma hit_TFns (f : fns_t) : hit (Ok (TFns f)).
Proof. left. now exists f. Qed.

Create HintDb traverse.
#[local] Hint Resolve hit_Throw hit_TFns : traverse.



Section LoopHit.

Variable rec : value -> string -> res tresult.
Variable routes : value.
Variable regexp : string.

Let loop := traverse_loop host self rec method path routes regexp.






End LoopHit.


End MatchFacts.



(* ------------------------------------------------------------------ *)
(** ** The examples *)

(** The witness of C6: with the matcher "(\d+)" registered for [id], the
    segment [user-:id] compiles to "user-(\d+)". *)
Lemma token_takes_first_changing_substitution_witness :
  Str.contains_char ":" "user-" = false
  /\ Str.contains_char "*" "user-" = false
  /\ "id" <> ""
  /\ Str.contains_char "/" "id" = false
  /\ Str.contains_char "*" "id" = false
  /\ paramifyString ":id" (params (id_router "(\d+)")) = "(\d+)"
  /\ regifyString "user-:id" (params (id_router "(\d+)")) = "user-(\d+)".
Proof.
  assert ("id" <> "") as Hne by discriminate.
  destruct (token_takes_first_changing_substitution
              (params (id_router "(\d+)")) "user-" "id"
              eq_refl eq_refl Hne eq_refl eq_refl) as (P & _ & _ & _ & R).
  split; [reflexivity|]. split; [reflexivity|]. split; [exact Hne|].
  split; [reflexivity|]. split; [reflexivity|].
  split; [exact P | exact (R eq_refl)].
Defined.

(** The counterexample of C9: with a matcher that holds a star
    registered for [id], the segment [:id] compiles to that matcher, and
    compiling the result again expands the star into the wildcard
    group. *)
Lemma recompiling_wildcard_substitution_differs :
  regifyString ":id" (params (id_router "(.*)")) = "(.*)"
  /\ regifyString (regifyString ":id" (params (id_router "(.*)")))
                  (params (id_router "(.*)"))
     = "(.([_.()!\ %@&a-zA-Z0-9-]+))".
Proof. split; reflexivity. Qed.

(** The witness of C9: the replacement "(\d+)" is clean. *)
Lemma regify_idempotent_on_clean_replacements_witness :
  Forall (fun tok => clean (paramifyString tok (params (id_router "(\d+)"))) = true)
         (compiled_tokens "user-:id")
  /\ regifyString (regifyString "user-:id" (params (id_router "(\d+)")))
                  (params (id_router "(\d+)"))
     = regifyString "user-:id" (params (id_router "(\d+)")).
Proof.
  assert (Forall (fun tok => clean (paramifyString tok (params (id_router "(\d+)"))) = true)
                 (compiled_tokens "user-:id")) as F.
  { repeat constructor. }
  split; [exact F|].
  exact (regify_idempotent_on_clean_replacements "user-:id" _ F).
Defined.



(** The witness of C2: a root with all three hooks. *)
Lemma traverse_root_short_circuit_witness :
  get_prop (VObj [("before", VFun 2); ("on", VFun 1); ("after", VFun 3)]) "on"
  = Ok (VFun 1)
  /\ truthy (VFun 1) = true
  /\ traverse MiniRegExp.host new_Router 0 "on" "/"
              (VObj [("before", VFun 2); ("on", VFun 1); ("after", VFun 3)]) ""
     = Ok (TFns {| layers := [VArr [VFun 2; VFun 1]];
                   after := [VFun 3];
                   fn_captures := [] |}).
Proof.
  split; [reflexivity|]. split; [reflexivity|].
  exact (traverse_root_short_circuit MiniRegExp.host new_Router 0 "on"
           (VObj [("before", VFun 2); ("on", VFun 1); ("after", VFun 3)]) ""
           (VFun 1) eq_refl eq_refl).
Defined.


(** C1, on a router where the code departs from it.  Two handlers are
    declared for [/a] and a global [on] hook is configured, so the
    run-list is the list of the two handlers followed by the hook.  The
    first handler returns [false]: the second is skipped, but the hook,
    which comes after it in the run-list, is still called: [_every]
    returns [undefined] for the inner list, so the outer walk goes on. *)
Theorem false_in_handler_list_does_not_stop_walk :
  routes two_handlers_and_hook = VObj [("a", VObj [("on", VArr [VFun 1; VFun 2])])]
  /\ every_on (every two_handlers_and_hook) = VFun 3
  /\ truthy (async two_handlers_and_hook) = false
  /\ snd (fst (dispatch MiniRegExp.host first_says_stop 8 "on" "/a" VUndef
                        two_handlers_and_hook []))
     = [Build_call 1 ThisRouter []; Build_call 3 ThisRouter []]
  /\ snd (dispatch MiniRegExp.host first_says_stop 8 "on" "/a" VUndef
                   two_handlers_and_hook [])
     = Ok true.
Proof. repeat split. Qed.

(** The same at the level of [invoke]: in the run-list [[h1], h2], [h2] is
    called although [h1] returned [false]. *)
Example invoke_goes_on_after_nested_false :
  invoke first_says_stop new_Router
         {| items := [VArr [VFun 1]; VFun 2]; captures := Some [] |}
         ThisRouter VUndef []
  = ([Build_call 1 ThisRouter []; Build_call 2 ThisRouter []], Ok tt).
Proof. reflexivity. Qed.

(** In the flat run-list [h1, h2] the walk does stop. *)
Example invoke_stops_in_flat_list :
  invoke first_says_stop new_Router
         {| items := [VFun 1; VFun 2]; captures := Some [] |}
         ThisRouter VUndef []
  = ([Build_call 1 ThisRouter []], Ok tt).
Proof. reflexivity. Qed.

(** C3, on a router where the code departs from it.  With [async] on and
    a not-found handler configured, dispatching a path that matches no
    route does not return [false]: it raises a [TypeError], and the
    handler is not called. *)
Theorem async_notfound_dispatch_raises :
  forall (handler : oracle),
    dispatch MiniRegExp.host handler 8 "on" "/missing" VUndef
             (configure new_Router (options_async_notfound (VBool true) (VFun 9))) []
    = (set_last_invoked
         (configure new_Router (options_async_notfound (VBool true) (VFun 9)))
         (VArr []) (VBool true),
       [],
       Throw (TypeError "Cannot read property 'concat' of undefined")).
Proof. intros handler. reflexivity. Qed.

(** The synchronous router on the same input: [false] is returned and
    the handler is called once, on [{method, path}]. *)
Example sync_notfound_dispatch_returns_false :
  dispatch MiniRegExp.host all_go_on 8 "on" "/missing" VUndef
           (configure new_Router (options_async_notfound VUndef (VFun 9))) []
  = (set_last_invoked
       (configure new_Router (options_async_notfound VUndef (VFun 9)))
       (VArr []) (VBool true),
     [Build_call 9 (notfound_this "on" "/missing") []],
     Ok false).
Proof. reflexivity. Qed.

(** C8, on a router where the code departs from it.  The number [42] is
    declared as the route of [/a] and a global [on] hook is configured, so
    the run-list is [42] followed by the hook.  With [async] on, the walk
    ends at [42]: neither the hook nor the callback of [dispatch] is
    called.  With [async] off, [42] is passed over and the hook is
    called. *)
Theorem async_walk_stalls_on_non_function :
  forall (handler : oracle),
    routes (number_route (VBool true)) = VObj [("a", VObj [("on", VNum 42)])]
    /\ snd (fst (dispatch MiniRegExp.host handler 8 "on" "/a" (VFun 5)
                          (number_route (VBool true)) []))
       = []
    /\ snd (dispatch MiniRegExp.host handler 8 "on" "/a" (VFun 5)
                     (number_route (VBool true)) [])
       = Ok true
    /\ snd (fst (dispatch MiniRegExp.host all_go_on 8 "on" "/a" (VFun 5)
                          (number_route VUndef) []))
       = [Build_call 3 ThisRouter []].
Proof. intros handler. repeat split. Qed.


(** With literal keys the delimiter is taken: [/foo/bar/] is not matched
    in strict mode and is matched in non-strict mode. *)
Example literal_keys_take_trailing_delimiter :
  traverse MiniRegExp.host nested_router 8 "on" "/foo/bar/" (routes nested_router) ""
  = Ok TFalse
  /\ traverse MiniRegExp.host (relaxed nested_router) 8 "on" "/foo/bar/"
              (routes nested_router) ""
     = Ok (TFns {| layers := [VArr [VFun 1]]; after := []; fn_captures := [] |}).
Proof. split; reflexivity. Qed.

(* ================================================================== *)
(** * Further properties *)

(** ** Running handlers: [_flatten], [_every], [_asyncEverySeries], [invoke] *)

Lemma fold_concat1_arrays (ls : list (list value)) (acc : list value) :
  fold_left concat1 (map VArr ls) acc = (acc ++ List.concat ls)%list.
Proof.
  revert acc. induction ls as [|l ls IH]; intros acc; simpl.
  - now rewrite app_nil_r.
  - now rewrite IH, app_assoc.
Qed.

(** X1.  [_flatten] splices the elements of a list of arrays into one
    list, in order and one level deep: arrays among the elements of those
    arrays stay as they are. *)
Theorem flatten_splices_one_level :
  forall ls : list (list value), _flatten (map VArr ls) = List.concat ls.
Proof. intros ls. unfold _flatten. now rewrite fold_concat1_arrays. Qed.

Section InvokeMore.

Variable handler : oracle.
Variable self : Router.

Lemma every_appends {A} (iterator : A -> trace -> trace * res value) (l : list A) :
  Forall (fun x => forall tr, exists calls, fst (iterator x tr) = (tr ++ calls)%list) l ->
  forall tr, exists calls, fst (_every iterator l tr) = (tr ++ calls)%list.
Proof.
  induction 1 as [|x l Hx _ IH]; intros tr; simpl.
  - exists []. now rewrite app_nil_r.
  - destruct (Hx tr) as [c1 E1].
    destruct (iterator x tr) as [tr1 [v|e]]; simpl in E1; subst tr1.
    + destruct (is_false v); [now exists c1|].
      destruct (IH (tr ++ c1)%list) as [c2 E2].
      exists (c1 ++ c2)%list. now rewrite E2, app_assoc.
    + now exists c1.
Qed.

Lemma call_fn_appends (f : fid) (thisArg : this_t) (a : list value) (tr : trace) :
  fst (call_fn handler f thisArg a tr) = (tr ++ [Build_call f thisArg a])%list.
Proof. unfold call_fn. now destruct (handler f thisArg a). Qed.

Lemma apply_appends (thisArg : this_t) (a : list value) (fn : value) :
  forall tr, exists calls, fst (apply handler self thisArg a fn tr) = (tr ++ calls)%list.
Proof.
  induction fn as [v Hv | l IH] using value_nested_ind; intros tr.
  - destruct v; try discriminate; cbn [apply];
      try (exists []; now rewrite app_nil_r).
    + destruct (truthy (resource self)); [|exists []; now rewrite app_nil_r].
      destruct (get_prop (resource self) s) as [[| | | | |g| |]|e];
        try (exists []; now rewrite app_nil_r).
      exists [Build_call g thisArg a].
      rewrite <- (call_fn_appends g thisArg a tr).
      now destruct (call_fn handler g thisArg a tr) as [t [x|x]].
    + exists [Build_call f thisArg a]. apply call_fn_appends.
  - cbn [apply]. now apply every_appends.
Qed.

Lemma invoke_sync_appends (fns : runlist_t) (thisArg : this_t) (tr : trace) :
  exists calls, fst (invoke_sync handler self fns thisArg tr) = (tr ++ calls)%list.
Proof.
  unfold invoke_sync. apply every_appends.
  apply Forall_forall. intros x _. apply apply_appends.
Qed.

Lemma iterate_appends (thisArg : this_t) (fns : runlist_t) (l : list value) :
  forall tr, exists calls,
    fst (iterate (async_iterator handler thisArg fns) l tr) = (tr ++ calls)%list.
Proof.
  induction l as [|x l IH]; intros tr; cbn [iterate].
  - exists []. now rewrite app_nil_r.
  - unfold async_iterator at 1.
    destruct x; try (exists []; now rewrite app_nil_r).
    destruct (captures fns) as [c|]; [|exists []; now rewrite app_nil_r].
    destruct (handler f thisArg c) as [v [err|]|v];
      try (now exists [Build_call f thisArg c]).
    destruct (truthy err || is_false err); [now exists [Build_call f thisArg c]|].
    destruct (IH (tr ++ [Build_call f thisArg c])%list) as [c2 E2].
    exists ([Build_call f thisArg c] ++ c2)%list. now rewrite E2, app_assoc.
Qed.

Lemma invoke_async_appends (fns : runlist_t) (thisArg : this_t) (tr : trace) :
  exists calls, fst (invoke_async handler fns thisArg tr) = (tr ++ calls)%list.
Proof.
  unfold invoke_async, _asyncEverySeries.
  destruct (items fns) as [|x l] eqn:E.
  - exists []. now rewrite app_nil_r.
  - apply iterate_appends.
Qed.

Lemma run_callback_appends (callback : value) (e : series_end) (tr : trace) :
  exists calls, fst (run_callback handler callback e tr) = (tr ++ calls)%list.
Proof.
  unfold run_callback.
  destruct e as [a|]; [|exists []; now rewrite app_nil_r].
  destruct (truthy callback); [|exists []; now rewrite app_nil_r].
  destruct callback; try (exists []; now rewrite app_nil_r).
  exists [Build_call f (ThisValue VNull) a].
  rewrite <- (call_fn_appends f (ThisValue VNull) a tr).
  now destruct (call_fn handler f (ThisValue VNull) a tr) as [t [x|x]].
Qed.

Lemma invoke_appends (fns : runlist_t) (thisArg : this_t) (callback : value)
      (tr : trace) :
  exists calls, fst (invoke handler self fns thisArg callback tr) = (tr ++ calls)%list.
Proof.
  unfold invoke. destruct (truthy (async self)).
  - destruct (invoke_async_appends fns thisArg tr) as [c1 E1].
    destruct (invoke_async handler fns thisArg tr) as [tr1 [e|x]]; simpl in E1; subst tr1.
    + destruct (run_callback_appends callback e (tr ++ c1)%list) as [c2 E2].
      exists (c1 ++ c2)%list. now rewrite E2, app_assoc.
    + now exists c1.
  - destruct (invoke_sync_appends fns thisArg tr) as [c1 E1].
    destruct (invoke_sync handler self fns thisArg tr) as [tr1 [v|x]]; simpl in E1;
      subst tr1; now exists c1.
Qed.

(** A flat list of functions none of which answers [false]: each is
    called, in order. *)
Lemma every_apply_all (thisArg : this_t) (a : list value) (fs : list fid) :
  Forall (goes_on handler thisArg a) fs ->
  forall tr,
    _every (apply handler self thisArg a) (map VFun fs) tr
    = ((tr ++ calls_of fs thisArg a)%list, Ok VUndef).
Proof.
  induction 1 as [|f fs (v & n & Hf & Hv) _ IH]; intros tr; simpl.
  - now rewrite app_nil_r.
  - unfold call_fn. rewrite Hf, Hv, IH. now rewrite <- app_assoc.
Qed.

(** Followed by a function that answers [false]: the walk ends there. *)
Lemma every_apply_until_false (thisArg : this_t) (a : list value)
      (fs : list fid) (f : fid) (n : option value) (rest : list value) :
  Forall (goes_on handler thisArg a) fs ->
  handler f thisArg a = Returns (VBool false) n ->
  forall tr,
    _every (apply handler self thisArg a) (map VFun fs ++ VFun f :: rest)%list tr
    = ((tr ++ calls_of fs thisArg a ++ [Build_call f thisArg a])%list, Ok VUndef).
Proof.
  intros Hfs Hf.
  induction Hfs as [|g fs (v & m & Hg & Hv) _ IH]; intros tr; simpl.
  - unfold call_fn. now rewrite Hf.
  - unfold call_fn. rewrite Hg, Hv, IH. now rewrite <- app_assoc.
Qed.

Lemma every_no_throw {A} (iterator : A -> trace -> trace * res value) (l : list A) :
  Forall (fun x => forall tr, exists tr' v, iterator x tr = (tr', Ok v)) l ->
  forall tr, exists tr' v, _every iterator l tr = (tr', Ok v).
Proof.
  induction 1 as [|x l Hx _ IH]; intros tr; simpl.
  - now exists tr, VUndef.
  - destruct (Hx tr) as (tr1 & v & E). rewrite E.
    destruct (is_false v); [now exists tr1, VUndef | apply IH].
Qed.

Lemma apply_no_throw (thisArg : this_t) (a : list value) (fn : value) :
  never_raises handler ->
  truthy (resource self) = false ->
  forall tr, exists tr' v, apply handler self thisArg a fn tr = (tr', Ok v).
Proof.
  intros Hh Hr.
  induction fn as [v Hv | l IH] using value_nested_ind; intros tr.
  - destruct v; try discriminate; cbn [apply]; try (now exists tr, VUndef).
    + rewrite Hr. now exists tr, VUndef.
    + unfold call_fn. destruct (Hh f thisArg a) as (v & n & E). rewrite E.
      now eexists _, _.
  - cbn [apply]. now apply every_no_throw.
Qed.

Lemma invoke_sync_no_throw (fns : runlist_t) (thisArg : this_t) (tr : trace) :
  never_raises handler ->
  truthy (resource self) = false ->
  exists tr' v, invoke_sync handler self fns thisArg tr = (tr', Ok v).
Proof.
  intros Hh Hr. unfold invoke_sync. apply every_no_throw.
  apply Forall_forall. intros x _. now apply apply_no_throw.
Qed.

(** A series of functions each of which calls [next] to go on. *)
Lemma iterate_all (thisArg : this_t) (c : list value) (fs : list fid)
      (l : list value) :
  Forall (calls_next handler thisArg c) fs ->
  forall tr,
    iterate (async_iterator handler thisArg {| items := l; captures := Some c |})
            (map VFun fs) tr
    = ((tr ++ calls_of fs thisArg c)%list, Ok (CallbackCalled [])).
Proof.
  induction 1 as [|f fs (v & err & Hf & Ht & He) _ IH]; intros tr; simpl.
  - now rewrite app_nil_r.
  - rewrite Hf, Ht, He. cbn [orb]. rewrite IH. now rewrite <- app_assoc.
Qed.

Lemma iterate_until_error (thisArg : this_t) (c : list value) (fs : list fid)
      (f : fid) (v err : value) (rest l : list value) :
  Forall (calls_next handler thisArg c) fs ->
  handler f thisArg c = Returns v (Some err) ->
  truthy err || is_false err = true ->
  forall tr,
    iterate (async_iterator handler thisArg {| items := l; captures := Some c |})
            (map VFun fs ++ VFun f :: rest)%list tr
    = ((tr ++ calls_of fs thisArg c ++ [Build_call f thisArg c])%list,
       Ok (CallbackCalled [err])).
Proof.
  intros Hfs Hf Herr.
  induction Hfs as [|g fs (w & e & Hg & Ht & He) _ IH]; intros tr; simpl.
  - now rewrite Hf, Herr.
  - rewrite Hg, Ht, He. cbn [orb]. rewrite IH. now rewrite <- app_assoc.
Qed.

End InvokeMore.

(** X2.  In synchronous mode a flat run-list of functions none of which
    answers [false] or raises is called from first to last, each on the
    given [this] with the captures as arguments. *)
Theorem sync_invoke_calls_all_in_order :
  forall (handler : oracle) (self : Router) (fs : list fid)
         (caps : option (list value)) (thisArg : this_t) (callback : value)
         (tr : trace),
    let fns := {| items := map VFun fs; captures := caps |} in
    truthy (async self) = false ->
    Forall (goes_on handler thisArg (captures_or_null fns)) fs ->
    invoke handler self fns thisArg callback tr
    = ((tr ++ calls_of fs thisArg (captures_or_null fns))%list, Ok tt).
Proof.
  intros handler self fs caps thisArg callback tr fns Hs Hfs.
  unfold invoke, invoke_sync. rewrite Hs. cbn [items fns].
  now rewrite (every_apply_all handler self thisArg _ fs Hfs tr).
Qed.

(** X3.  In synchronous mode, in a flat run-list, the first function
    that answers [false] ends the walk: the functions before it and the
    function itself are called, nothing after it is, and [invoke] returns
    normally. *)
Theorem sync_invoke_stops_at_first_false :
  forall (handler : oracle) (self : Router) (fs : list fid) (f : fid)
         (n : option value) (rest : list value)
         (caps : option (list value)) (thisArg : this_t) (callback : value)
         (tr : trace),
    let fns := {| items := (map VFun fs ++ VFun f :: rest)%list; captures := caps |} in
    truthy (async self) = false ->
    Forall (goes_on handler thisArg (captures_or_null fns)) fs ->
    handler f thisArg (captures_or_null fns) = Returns (VBool false) n ->
    invoke handler self fns thisArg callback tr
    = ((tr ++ calls_of fs thisArg (captures_or_null fns)
           ++ [Build_call f thisArg (captures_or_null fns)])%list, Ok tt).
Proof.
  intros handler self fs f n rest caps thisArg callback tr fns Hs Hfs Hf.
  unfold invoke, invoke_sync. rewrite Hs. cbn [items fns].
  now rewrite (every_apply_until_false handler self thisArg _ fs f n rest Hfs Hf tr).
Qed.

(** X4.  When no handler raises and the router has no [resource], a
    synchronous [invoke] returns normally on every run-list, however its
    entries are nested and whatever they are. *)
Theorem sync_invoke_never_raises :
  forall (handler : oracle) (self : Router) (fns : runlist_t)
         (thisArg : this_t) (callback : value) (tr : trace),
    never_raises handler ->
    truthy (resource self) = false ->
    truthy (async self) = false ->
    snd (invoke handler self fns thisArg callback tr) = Ok tt.
Proof.
  intros handler self fns thisArg callback tr Hh Hr Hs.
  unfold invoke. rewrite Hs.
  destruct (invoke_sync_no_throw handler self fns thisArg tr Hh Hr) as (tr' & v & E).
  now rewrite E.
Qed.

(** [invoke] only ever adds calls to the record of calls made, in
    either mode and whatever the run-list holds. *)
Theorem invoke_only_appends_calls :
  forall (handler : oracle) (self : Router) (fns : runlist_t)
         (thisArg : this_t) (callback : value) (tr : trace),
    exists calls,
      fst (invoke handler self fns thisArg callback tr) = (tr ++ calls)%list.
Proof. intros. apply invoke_appends. Qed.

(** X5.  In asynchronous mode a run-list of functions each of which
    calls [next] with nothing (or with a falsy value other than [false])
    is called from first to last with the captures, and then the callback
    is called once, on [null] and without arguments. *)
Theorem async_invoke_runs_series_then_callback :
  forall (handler : oracle) (self : Router) (fs : list fid) (c : list value)
         (thisArg : this_t) (cb : fid) (v : value) (n : option value) (tr : trace),
    truthy (async self) = true ->
    Forall (calls_next handler thisArg c) fs ->
    handler cb (ThisValue VNull) [] = Returns v n ->
    invoke handler self {| items := map VFun fs; captures := Some c |}
           thisArg (VFun cb) tr
    = ((tr ++ calls_of fs thisArg c ++ [Build_call cb (ThisValue VNull) []])%list,
       Ok tt).
Proof.
  intros handler self fs c thisArg cb v n tr Ha Hfs Hcb.
  unfold invoke, invoke_async, _asyncEverySeries. rewrite Ha. cbn [items].
  assert (iterate (async_iterator handler thisArg
                     {| items := map VFun fs; captures := Some c |})
                  (map VFun fs) tr
          = ((tr ++ calls_of fs thisArg c)%list, Ok (CallbackCalled []))) as E
      by now apply iterate_all.
  destruct fs as [|f fs].
  - cbn [map calls_of app]. unfold run_callback, call_fn. cbn [truthy].
    now rewrite Hcb.
  - cbn [map] in *. rewrite E.
    unfold run_callback, call_fn. cbn [truthy]. rewrite Hcb.
    now rewrite <- app_assoc.
Qed.

(** X6.  In asynchronous mode the first function that calls [next] with
    a truthy value or with [false] ends the series: nothing after it is
    called, and the callback is called once, on [null], with that value
    as its only argument. *)
Theorem async_invoke_stops_at_error :
  forall (handler : oracle) (self : Router) (fs : list fid) (f : fid)
         (rest : list value) (c : list value) (thisArg : this_t)
         (v err w : value) (cb : fid) (n : option value) (tr : trace),
    truthy (async self) = true ->
    Forall (calls_next handler thisArg c) fs ->
    handler f thisArg c = Returns v (Some err) ->
    truthy err || is_false err = true ->
    handler cb (ThisValue VNull) [err] = Returns w n ->
    invoke handler self
           {| items := (map VFun fs ++ VFun f :: rest)%list; captures := Some c |}
           thisArg (VFun cb) tr
    = ((tr ++ calls_of fs thisArg c ++ [Build_call f thisArg c]
           ++ [Build_call cb (ThisValue VNull) [err]])%list, Ok tt).
Proof.
  intros handler self fs f rest c thisArg v err w cb n tr Ha Hfs Hf Herr Hcb.
  unfold invoke, invoke_async, _asyncEverySeries. rewrite Ha. cbn [items].
  assert (iterate (async_iterator handler thisArg
                     {| items := (map VFun fs ++ VFun f :: rest)%list;
                        captures := Some c |})
                  (map VFun fs ++ VFun f :: rest)%list tr
          = ((tr ++ calls_of fs thisArg c ++ [Build_call f thisArg c])%list,
             Ok (CallbackCalled [err]))) as E
      by now apply iterate_until_error with v.
  destruct (map VFun fs ++ VFun f :: rest)%list as [|x l] eqn:EL.
  { now destruct fs. }
  rewrite E. unfold run_callback, call_fn. cbn [truthy]. rewrite Hcb.
  now rewrite <- !app_assoc.
Qed.

(* ------------------------------------------------------------------ *)
(** ** Settings: [configure], [param], [extend] *)

Lemma existsb_eqb_sym (k : string) (l : list string) :
  existsb (fun x => x =? k) l = existsb (String.eqb k) l.
Proof.
  induction l as [|x l IH]; simpl; [reflexivity|].
  now rewrite IH, String.eqb_sym.
Qed.

Lemma add_names_keeps (k : string) (ms : list string) :
  forall acc,
    existsb (String.eqb k) acc = true ->
    existsb (String.eqb k) (add_names ms acc) = true.
Proof.
  induction ms as [|m ms IH]; intros acc H; simpl; [exact H|].
  apply IH. destruct (existsb (String.eqb m) acc); [exact H|].
  rewrite existsb_app, H. reflexivity.
Qed.

Lemma add_names_registers (k : string) (ms : list string) :
  forall acc, In k ms -> existsb (String.eqb k) (add_names ms acc) = true.
Proof.
  induction ms as [|m ms IH]; intros acc H; simpl; [contradiction|].
  destruct H as [-> | H]; [|now apply IH].
  apply add_names_keeps.
  destruct (existsb (String.eqb k) acc) eqn:E; [exact E|].
  rewrite existsb_app. simpl. now rewrite String.eqb_refl, orb_true_r.
Qed.

Lemma add_names_present (ms acc : list string) :
  Forall (fun m => existsb (String.eqb m) acc = true) ms ->
  add_names ms acc = acc.
Proof.
  induction 1 as [|m ms Hm _ IH]; simpl; [reflexivity|].
  now rewrite Hm.
Qed.

Lemma add_names_twice (ms acc : list string) :
  add_names ms (add_names ms acc) = add_names ms acc.
Proof.
  apply add_names_present, Forall_forall.
  intros m Hm. now apply add_names_registers.
Qed.

Lemma or_else_settles (a : value) :
  or_else (or_else a (VBool false)) (VBool false) = or_else a (VBool false).
Proof. unfold or_else. now destruct (truthy a) eqn:E; [rewrite E|]. Qed.

Lemma or_else_again (a b : value) :
  or_else a (or_else (or_else a (or_else b (VBool false))) (VBool false))
  = or_else a (or_else b (VBool false)).
Proof.
  destruct (truthy a) eqn:E.
  - unfold or_else at 1 5. now rewrite E.
  - unfold or_else at 1 3 5. rewrite E. apply or_else_settles.
Qed.

(** X7.  Configuring twice with the same options is the same as
    configuring once. *)
Theorem configure_idempotent :
  forall (r : Router) (o : options),
    configure (configure r o) o = configure r o.
Proof.
  intros r o. unfold configure.
  cbn [params routes methods scope _methods recurse last _invoked].
  now rewrite add_names_twice, or_else_again.
Qed.

(** X8.  A later [configure] replaces the settings of an earlier one,
    with one exception: an earlier [recurse] that was set stays when the
    later call sets none.  So when the earlier call set no [recurse], the
    router is as if that call had not been made. *)
Theorem configure_forgets_earlier_options :
  forall (r : Router) (o1 o2 : options),
    truthy (o_recurse o1) = false ->
    configure (configure r o1) o2 = configure r o2.
Proof.
  intros r o1 o2 H. unfold configure.
  cbn [params routes methods scope _methods recurse last _invoked].
  rewrite add_names_twice.
  unfold or_else at 3. rewrite H. now rewrite or_else_settles.
Qed.

(** After [configure], every name listed in [methods] is a
    registered method name, and every name registered before still is. *)
Theorem configure_registers_methods :
  forall (r : Router) (o : options),
    Forall (fun m => is_method (configure r o) m = true)
           (methods r ++ _methods r)%list.
Proof.
  intros r o. apply Forall_forall. intros m Hm.
  unfold is_method, configure. cbn [_methods].
  apply in_app_or in Hm as [Hm | Hm].
  - now apply add_names_registers.
  - apply add_names_keeps. apply existsb_exists. exists m.
    split; [exact Hm | apply String.eqb_refl].
Qed.

Lemma token_key_settles (token : string) :
  token_key (token_key token) = token_key token.
Proof.
  destruct token as [|c t]; [reflexivity|].
  unfold token_key at 2.
  destruct c as [[] [] [] [] [] [] [] []]; reflexivity.
Qed.

Lemma param_unfold (host : RegExpHost) (token matcher : string) (r : Router) :
  param host token matcher r =
    (compiled <- new_RegExp host (token_key token) ;;
     Ok (set_params r
           (params_set (token_key token)
              (fun str => replace_all host compiled str matcher) (params r)))).
Proof. reflexivity. Qed.

(** The colon in front of a token is optional: [param] does the
    same for a token and for that token with its colon put in front. *)
Theorem param_colon_is_optional :
  forall (host : RegExpHost) (token matcher : string) (r : Router),
    param host (token_key token) matcher r = param host token matcher r.
Proof.
  intros host token matcher r.
  now rewrite (param_unfold host (token_key token)), token_key_settles.
Qed.

Lemma params_set_keys (key : string) (f : string -> string) (ps : params_t) :
  map fst (params_set key f ps) =
    if existsb (String.eqb key) (map fst ps) then map fst ps
    else (map fst ps ++ [key])%list.
Proof.
  induction ps as [|[k g] t IH]; simpl; [reflexivity|].
  rewrite (String.eqb_sym key k).
  destruct (k =? key) eqn:E; simpl; [reflexivity|].
  rewrite IH. now destruct (existsb (String.eqb key) (map fst t)).
Qed.

Lemma param_fn_set (key : string) (f : string -> string) (ps : params_t) :
  param_fn (params_set key f ps) key = Some f.
Proof.
  induction ps as [|[k g] t IH]; simpl.
  - now rewrite String.eqb_refl.
  - destruct (k =? key) eqn:E; simpl; now rewrite E.
Qed.

Lemma param_fn_set_other (key k : string) (f : string -> string) (ps : params_t) :
  k <> key -> param_fn (params_set key f ps) k = param_fn ps k.
Proof.
  intros N. induction ps as [|[k' g] t IH]; simpl.
  - apply String.eqb_neq in N. now rewrite String.eqb_sym, N.
  - destruct (k' =? key) eqn:E; simpl.
    + apply String.eqb_eq in E. subst k'.
      apply String.eqb_neq in N. now rewrite String.eqb_sym, N.
    + now rewrite IH.
Qed.

(** X9.  [param] either raises the host's [SyntaxError] for the token
    or registers the substitution under the token's key: a key
    registered before keeps its place in the enumeration order and gets
    the new substitution, a new key goes last; every other substitution
    and everything else in the router stays as it was. *)
Theorem param_registers_in_place :
  forall (host : RegExpHost) (token matcher : string) (r : Router),
    let key := token_key token in
    match compile host key with
    | None =>
        param host token matcher r
        = Throw (SyntaxError ("Invalid regular expression: " ++ key))
    | Some re =>
        exists r',
          param host token matcher r = Ok r'
          /\ map fst (params r') =
               (if existsb (String.eqb key) (map fst (params r))
                then map fst (params r)
                else (map fst (params r) ++ [key])%list)
          /\ param_fn (params r') key
             = Some (fun str => replace_all host re str matcher)
          /\ (forall k, k <> key -> param_fn (params r') k = param_fn (params r) k)
          /\ set_params r' (params r) = r
    end.
Proof.
  intros host token matcher r key.
  rewrite param_unfold. fold key. unfold new_RegExp.
  destruct (compile host key) as [re|]; [|reflexivity].
  cbn [bind]. eexists. split; [reflexivity|]. cbn [params set_params].
  split; [apply params_set_keys|].
  split; [apply param_fn_set|].
  split; [intros k N; now apply param_fn_set_other|].
  now destruct r.
Qed.

Lemma is_method_set (self : Router) (ms : list string) (k : string) :
  is_method (set_method_names self ms) k = existsb (String.eqb k) ms.
Proof. reflexivity. Qed.

(** X10.  When [extend] runs through, the registered method names are
    those registered before together with the names given, and nothing
    else in the router has changed. *)
Theorem extend_registers_names :
  forall (ms : list string) (self self' : Router),
    extend ms self = (self', Normal) ->
    (forall k, is_method self' k = is_method self k || existsb (String.eqb k) ms)
    /\ set_method_names self' (_methods self) = self.
Proof.
  intros ms. induction ms as [|m ms IH]; intros self self' H; cbn [extend] in H.
  - injection H as <-. split.
    + intros k. simpl. now rewrite orb_false_r.
    + now destruct self.
  - destruct (existsb (String.eqb m) router_members); [discriminate|].
    apply IH in H as [Hk Hrest]. split.
    + intros k. rewrite Hk, is_method_set. cbn [existsb add_names].
      unfold is_method.
      destruct (existsb (String.eqb m) (_methods self)) eqn:E.
      * destruct (k =? m) eqn:Ekm; [|now rewrite orb_false_l].
        apply String.eqb_eq in Ekm. subst k. now rewrite E.
      * rewrite existsb_app. cbn [existsb]. now rewrite orb_false_r, orb_assoc.
    + destruct self' as [a1 a2 a3 a4 a5 a6 a7 a8 a9 a10 a11 a12 a13 a14],
               self as [b1 b2 b3 b4 b5 b6 b7 b8 b9 b10 b11 b12 b13 b14].
      unfold set_method_names in *.
      cbn [params routes methods scope _methods recurse async delimiter strict
           notfound resource every last _invoked] in *.
      injection Hrest as -> -> -> -> -> -> -> -> -> -> -> -> ->. reflexivity.
Qed.

(* ------------------------------------------------------------------ *)
(** ** Building the table: [insert] *)















(** X13.  At the root of the table, when the slot for the method holds a
    string, a number or a boolean, [insert] with a path that has no
    segment returns normally and changes nothing: the route is
    dropped. *)
Theorem root_insert_over_primitive_is_dropped :
  forall (r : Router) (method : string) (path : list string) (route : value)
         (ps : props),
    routes r = VObj ps ->
    filter nonempty path = [] ->
    (typeof (own ps method) = TString \/ typeof (own ps method) = TNumber
     \/ typeof (own ps method) = TBoolean) ->
    insert method path route r = (r, Normal).
Proof.
  intros r method path route ps Hr Hp Ht. unfold insert. rewrite Hp, Hr.
  cbn [insert_at insert_last part_falsy andb]. unfold merge_slot.
  destruct Ht as [-> | [-> | ->]]; rewrite <- Hr; now rewrite set_routes_same.
Qed.

(* ------------------------------------------------------------------ *)
(** ** From [insert] to [traverse] and [dispatch] *)



Section RoundTrip.

Variable host : RegExpHost.
Variable self : Router.
Variable method : string.
Variable route : value.
Variable p : string.
Variable groups : list value.

Hypothesis method_not_before : method <> "before".
Hypothesis method_not_after : method <> "after".
Hypothesis route_truthy : truthy route = true.
Hypothesis no_recurse : truthy (recurse self) = false.
Hypothesis p_nonempty : p <> "".


End RoundTrip.



Section DispatchMore.

Variable host : RegExpHost.
Variable handler : oracle.


End DispatchMore.

Lemma insert_only_routes (method : string) (path : list string) (route : value)
      (r : Router) :
  fst (insert method path route r)
  = set_routes r (routes (fst (insert method path route r))).
Proof.
  unfold insert.
  now destruct (insert_at (params r) true method (filter nonempty path) route (routes r)).
Qed.



Section DispatchRoundTrip.

Variable host : RegExpHost.
Variable handler : oracle.


End DispatchRoundTrip.


Section DispatchLater.

Variable host : RegExpHost.
Variable handler : oracle.

(** A later dispatch of a synchronous router that finds a route: the
    list built from the global [after] and [this.last] is invoked first,
    then the after-layer is recorded and the run-list is invoked. *)
Lemma dispatch_later_sync (depth : nat) (method path : string) (callback : value)
      (self : Router) (tr : trace) (f : fns_t) :
  truthy (async self) = false ->
  truthy (_invoked self) = true ->
  truthy (recurse self) = false ->
  layers f <> [] ->
  traverse host self depth method path (routes self) "" = Ok (TFns f) ->
  let self0 := set_last_invoked self (last self) (VBool true) in
  let self' := set_last_invoked self (VArr (after f)) (VBool true) in
  dispatch host handler depth method path callback self tr =
    match invoke_sync handler self0 (after_list self0) ThisRouter tr with
    | (tr1, Throw e) => (self0, tr1, Throw e)
    | (tr1, Ok _) =>
        match invoke_sync handler self' (runlist self' f) ThisRouter tr1 with
        | (tr2, Ok _) => (self', tr2, Ok true)
        | (tr2, Throw e) => (self', tr2, Throw e)
        end
    end.
Proof.
  intros Hs Hi Hrec Hl Ht self0 self'. unfold dispatch. rewrite Ht.
  destruct f as [ls a c]. cbn [layers] in Hl.
  destruct ls as [|l ls]; [now elim Hl|].
  cbn [recurse set_last_invoked].
  assert (forall x y : fns_t,
             match recurse self with VStr "forward" => x | _ => y end = y) as Hfw.
  { intros x y. destruct (recurse self) as [| | | |s| | |]; try reflexivity.
    destruct s as [|c0 s]; [reflexivity | discriminate]. }
  rewrite Hfw. cbn [_invoked]. rewrite Hi.
  assert (negb (Nat.eqb (List.length (items (after_list self0))) 0) = true) as Hlen.
  { unfold after_list. cbn [items].
    destruct (truthy (every_after (every self0))); [|reflexivity].
    unfold concat1. destruct (last self0); reflexivity. }
  fold self0. rewrite Hlen. cbn [andb].
  change (async self0) with (async self). rewrite Hs.
  unfold invoke at 1. change (async self0) with (async self). rewrite Hs.
  destruct (invoke_sync handler self0 (after_list self0) ThisRouter tr) as [tr1 [v|e]];
    [|reflexivity].
  unfold updateAndInvoke, invoke.
  cbn [after].
  change (set_last_invoked self0 (VArr a) (_invoked self0)) with self'.
  change (async self') with (async self). rewrite Hs.
  now destruct (invoke_sync handler self' _ ThisRouter tr1) as [tr2 [w|e]].
Qed.

End DispatchLater.

(** X16.  A later dispatch first runs the after-handlers that the
    dispatch before it recorded, on the router and without arguments, and
    then the handlers of the route found, with the captures; it answers
    [true] and records the new after-layer.  (The router is synchronous,
    does not recurse and has no global hooks; the handlers are functions
    none of which answers [false] or raises.) *)
Theorem dispatch_runs_recorded_after_handlers_first :
  forall (host : RegExpHost) (handler : oracle) (self : Router)
         (depth : nat) (method path : string) (callback : value) (tr : trace)
         (f : fns_t) (afters hs : list fid),
    truthy (async self) = false ->
    truthy (_invoked self) = true ->
    truthy (recurse self) = false ->
    truthy (every_after (every self)) = false ->
    truthy (every_before (every self)) = false ->
    truthy (every_on (every self)) = false ->
    last self = VArr (map VFun afters) ->
    traverse host self depth method path (routes self) "" = Ok (TFns f) ->
    layers f <> [] ->
    _flatten (layers f) = map VFun hs ->
    Forall (goes_on handler ThisRouter []) afters ->
    Forall (goes_on handler ThisRouter (fn_captures f)) hs ->
    dispatch host handler depth method path callback self tr
    = (set_last_invoked self (VArr (after f)) (VBool true),
       (tr ++ calls_of afters ThisRouter []
           ++ calls_of hs ThisRouter (fn_captures f))%list,
       Ok true).
Proof.
  intros host handler self depth method path callback tr f afters hs
         Hs Hi Hrec Hafter Hbefore Hon Hlast Ht Hl Hflat Hga Hgh.
  rewrite (dispatch_later_sync host handler depth method path callback self tr f
             Hs Hi Hrec Hl Ht).
  unfold after_list, invoke_sync, runlist.
  cbn [every set_last_invoked last items captures_or_null captures].
  rewrite Hafter, Hbefore, Hon, Hlast, Hflat. cbn [items _every apply].
  rewrite (every_apply_all handler _ ThisRouter [] afters Hga tr).
  cbn [is_false].
  rewrite (every_apply_all handler _ ThisRouter (fn_captures f) hs Hgh).
  now rewrite <- app_assoc.
Qed.

Section DispatchFrame.

Variable host : RegExpHost.
Variable handler : oracle.


Lemma set_last_invoked_same (r : Router) :
  set_last_invoked r (last r) (_invoked r) = r.
Proof. now destruct r. Qed.

Lemma updateAndInvoke_frame (self : Router) (fns : fns_t) (callback : value)
      (tr : trace) :
  exists l calls,
    fst (fst (updateAndInvoke handler self fns callback tr))
    = set_last_invoked self l (_invoked self)
    /\ snd (fst (updateAndInvoke handler self fns callback tr)) = (tr ++ calls)%list.
Proof.
  unfold updateAndInvoke.
  destruct (invoke_appends handler
              (set_last_invoked self (VArr (after fns)) (_invoked self))
              (runlist (set_last_invoked self (VArr (after fns)) (_invoked self)) fns)
              ThisRouter callback tr) as [calls E].
  destruct (invoke handler _ _ ThisRouter callback tr) as [tr' out].
  exists (VArr (after fns)), calls. split; [reflexivity | exact E].
Qed.

Lemma dispatch_frame (depth : nat) (method path : string) (callback : value)
      (self : Router) (tr : trace) :
  exists l i calls,
    fst (fst (dispatch host handler depth method path callback self tr))
    = set_last_invoked self l i
    /\ snd (fst (dispatch host handler depth method path callback self tr))
       = (tr ++ calls)%list.
Proof.
  unfold dispatch.
  destruct (traverse host self depth method path (routes self) "") as [fns|e].
  2:{ exists (last self), (_invoked self), []. cbn [fst snd].
      now rewrite set_last_invoked_same, app_nil_r. }
  set (self0 := set_last_invoked self (last self) (VBool true)).
  assert (forall fns' tr0 calls0,
             tr0 = (tr ++ calls0)%list ->
             exists l i calls,
               fst (fst (match updateAndInvoke handler self0 fns' callback tr0 with
                         | (self', tr'', Ok _) => (self', tr'', Ok true)
                         | (self', tr'', Throw e) => (self', tr'', Throw e)
                         end))
               = set_last_invoked self l i
               /\ snd (fst (match updateAndInvoke handler self0 fns' callback tr0 with
                            | (self', tr'', Ok _) => (self', tr'', Ok true)
                            | (self', tr'', Throw e) => (self', tr'', Throw e)
                            end))
                  = (tr ++ calls)%list) as Hupd.
  { intros fns' tr0 calls0 ->.
    destruct (updateAndInvoke_frame self0 fns' callback (tr ++ calls0)%list)
      as (l & calls & E1 & E2).
    destruct (updateAndInvoke handler self0 fns' callback (tr ++ calls0)%list)
      as [[s t] [u|e]]; cbn [fst snd] in *; subst;
      exists l, (_invoked self0), (calls0 ++ calls)%list;
      now rewrite app_assoc. }
  assert (exists l i calls,
             fst (fst (let self1 := set_last_invoked self0 (VArr []) (_invoked self0) in
                       match typeof (notfound self1) with
                       | TFunction =>
                           match invoke handler self1
                                   {| items := [notfound self1]; captures := None |}
                                   (ThisValue (VObj [("method", VStr method);
                                                     ("path", VStr path)]))
                                   callback tr with
                           | (tr', Ok _) => (self1, tr', Ok false)
                           | (tr', Throw e) => (self1, tr', Throw e)
                           end
                       | _ => (self1, tr, Ok false)
                       end))
             = set_last_invoked self l i
             /\ snd (fst (let self1 := set_last_invoked self0 (VArr []) (_invoked self0) in
                          match typeof (notfound self1) with
                          | TFunction =>
                              match invoke handler self1
                                      {| items := [notfound self1]; captures := None |}
                                      (ThisValue (VObj [("method", VStr method);
                                                        ("path", VStr path)]))
                                      callback tr with
                              | (tr', Ok _) => (self1, tr', Ok false)
                              | (tr', Throw e) => (self1, tr', Throw e)
                              end
                          | _ => (self1, tr, Ok false)
                          end))
                = (tr ++ calls)%list) as Hnone.
  { cbv zeta.
    set (self1 := set_last_invoked self0 (VArr []) (_invoked self0)).
    destruct (invoke_appends handler self1
                {| items := [notfound self1]; captures := None |}
                (ThisValue (VObj [("method", VStr method); ("path", VStr path)]))
                callback tr) as [calls E].
    destruct (typeof (notfound self1));
      try (exists (VArr []), (VBool true), []; cbn [fst snd];
           now rewrite app_nil_r).
    destruct (invoke handler self1 _ _ callback tr) as [tr' [u|e]];
      cbn [fst snd] in *; exists (VArr []), (VBool true), calls; now split. }
  destruct fns as [|[ls a c]]; [exact Hnone|].
  destruct ls as [|l ls]; [exact Hnone|].
  match goal with
  | |- context [updateAndInvoke handler self0 ?x callback] => generalize x
  end.
  intros fns'.
  destruct (negb (Nat.eqb (List.length (items (after_list self0))) 0)
            && truthy (_invoked self)); [|now apply (Hupd fns' tr [] (eq_sym (app_nil_r tr)))].
  destruct (truthy (async self0)).
  - destruct (invoke_async_appends handler (after_list self0) ThisRouter tr) as [c1 E1].
    destruct (invoke_async handler (after_list self0) ThisRouter tr) as [tr1 [[cb|]|e]];
      cbn [fst] in E1; subst tr1.
    + now apply (Hupd fns' _ c1).
    + exists (last self), (VBool true), c1. now split.
    + exists (last self), (VBool true), c1. now split.
  - destruct (invoke_appends handler self0 (after_list self0) ThisRouter VUndef tr)
      as [c1 E1].
    destruct (invoke handler self0 (after_list self0) ThisRouter VUndef tr)
      as [tr1 [u|e]]; cbn [fst] in E1; subst tr1.
    + now apply (Hupd fns' _ c1).
    + exists (last self), (VBool true), c1. now split.
Qed.

End DispatchFrame.


(** [dispatch] only ever adds calls to the record of calls made. *)
Theorem dispatch_only_appends_calls :
  forall (host : RegExpHost) (handler : oracle) (depth : nat)
         (method path : string) (callback : value) (self : Router) (tr : trace),
    exists calls,
      snd (fst (dispatch host handler depth method path callback self tr))
      = (tr ++ calls)%list.
Proof.
  intros host handler depth method path callback self tr.
  destruct (dispatch_frame host handler depth method path callback self tr)
    as (l & i & calls & _ & E).
  now exists calls.
Qed.

(** X18.  A synchronous router that finds no route answers [false] and
    records an empty after-layer; a not-found handler that is a function
    is called once, on the object holding the method and the path and
    without arguments, and nothing else is called. *)
Theorem sync_dispatch_without_route_calls_notfound :
  forall (host : RegExpHost) (handler : oracle) (depth : nat)
         (method path : string) (callback : value) (self : Router) (tr : trace),
    truthy (async self) = false ->
    traverse host self depth method path (routes self) "" = Ok TFalse ->
    let self' := set_last_invoked self (VArr []) (VBool true) in
    dispatch host handler depth method path callback self tr =
      match notfound self with
      | VFun f =>
          let c := Build_call f (notfound_this method path) [] in
          match handler f (notfound_this method path) [] with
          | Returns _ _ => (self', (tr ++ [c])%list, Ok false)
          | Raises v => (self', (tr ++ [c])%list, Throw (Thrown v))
          end
      | _ => (self', tr, Ok false)
      end.
Proof.
  intros host handler depth method path callback self tr.
  exact (dispatch_unmatched_sync host handler depth method path callback self tr).
Qed.

(* ------------------------------------------------------------------ *)
(** ** Declarations: [on], [param], [path] *)

Section DeclareMore.

Variable host : RegExpHost.

Lemma insert_settings (method : string) (path : list string) (route : value)
      (r : Router) :
  settings (fst (insert method path route r)) = settings r.
Proof. now rewrite insert_only_routes. Qed.

Lemma on1_settings (method path : string) (route : value) (r : Router) :
  settings (fst (on1 host method path route r)) = settings r.
Proof.
  unfold on1. destruct (split_path host r path); [apply insert_settings | reflexivity].
Qed.

Lemma on_each_settings (ms : list string) (path : string) (route : value) :
  forall r, settings (fst (on_each host ms path route r)) = settings r.
Proof.
  induction ms as [|m ms IH]; intros r; cbn [on_each]; [reflexivity|].
  pose proof (on1_settings m path route r) as H.
  destruct (on1 host m path route r) as [r' [|e|]]; cbn [fst] in *;
    [now rewrite IH | exact H | exact H].
Qed.

Lemma on_settings (a : on_args) (r : Router) :
  settings (fst (on host a r)) = settings r.
Proof. destruct a; cbn [on]; auto using on1_settings, on_each_settings. Qed.

Lemma run_decls_all (P : Router -> Router -> Prop) (ds : list decl) :
  (forall s, P s s) ->
  (forall a b c, P a b -> P b c -> P a c) ->
  Forall (fun d => forall s, P s (fst (run_decl host d s))) ds ->
  forall s, P s (fst (run_decls host ds s)).
Proof.
  intros Hrefl Htrans. induction 1 as [|d l Hd _ IH]; intros s; cbn [run_decls].
  - apply Hrefl.
  - specialize (Hd s). destruct (run_decl host d s) as [s1 [|e|]]; cbn [fst] in *;
      [apply Htrans with s1; [exact Hd | apply IH] | exact Hd | exact Hd].
Qed.

Lemma run_decl_settings (d : decl) :
  forall self, settings (fst (run_decl host d self)) = settings self.
Proof.
  induction d as [a|token matcher|p ds IH] using decl_nested_ind; intros self.
  - apply on_settings.
  - cbn [run_decl]. unfold param.
    now destruct (new_RegExp host _) as [re|e].
  - rewrite run_decl_path.
    destruct (split_path host self (path_string p)) as [parts|e]; [|reflexivity].
    pose proof (run_decls_all (fun a b => settings b = settings a) ds
                  (fun s => eq_refl)
                  (fun a b c H1 H2 => eq_trans H2 H1) IH
                  (set_scope self (scope self ++ parts)%list)) as H.
    destruct (run_decls host ds _) as [s1 [|e|]]; cbn [fst] in *; exact H.
Qed.


Lemma run_decl_scope_grows (d : decl) :
  forall self, exists extra,
    scope (fst (run_decl host d self)) = (scope self ++ extra)%list.
Proof.
  induction d as [a|token matcher|p ds IH] using decl_nested_ind; intros self.
  - exists []. cbn [run_decl]. now rewrite on_scope, app_nil_r.
  - exists []. cbn [run_decl]. unfold param. rewrite app_nil_r.
    now destruct (new_RegExp host _) as [re|e].
  - rewrite run_decl_path.
    destruct (split_path host self (path_string p)) as [parts|e];
      [|exists []; now rewrite app_nil_r].
    pose proof (run_decls_all
                  (fun a b => exists extra, scope b = (scope a ++ extra)%list) ds
                  (fun s => ex_intro _ [] (eq_sym (app_nil_r (scope s))))) as H.
    destruct (H (fun a b c '(ex_intro _ x Hx) '(ex_intro _ y Hy) =>
                   ex_intro _ (x ++ y)%list
                     (eq_trans Hy (eq_trans (f_equal (fun l => (l ++ y)%list) Hx)
                                            (eq_sym (app_assoc _ _ _)))))
                IH (set_scope self (scope self ++ parts)%list)) as [extra E].
    pose proof (run_decls_scope host ds (set_scope self (scope self ++ parts)%list)) as N.
    destruct (run_decls host ds _) as [s1 [|e|]]; cbn [fst scope set_scope] in *.
    + exists []. rewrite (N s1 eq_refl), app_nil_r. apply splice_appended.
    + exists (parts ++ extra)%list. now rewrite E, app_assoc.
    + exists (parts ++ extra)%list. now rewrite E, app_assoc.
Qed.

Lemma run_decls_scope_grows (ds : list decl) :
  forall self, exists extra,
    scope (fst (run_decls host ds self)) = (scope self ++ extra)%list.
Proof.
  apply (run_decls_all (fun a b => exists extra, scope b = (scope a ++ extra)%list)).
  - intros s. exists []. now rewrite app_nil_r.
  - intros a b c [x Hx] [y Hy]. exists (x ++ y)%list. now rewrite Hy, Hx, app_assoc.
  - apply Forall_forall. intros d _. apply run_decl_scope_grows.
Qed.

End DeclareMore.

(** X19.  The declaration methods [on], [param] and [path], however
    they are nested and however they end, change nothing in the router
    but the table, the substitutions and the scope. *)
Theorem declarations_keep_settings :
  forall (host : RegExpHost) (ds : list decl) (self : Router),
    settings (fst (run_decls host ds self)) = settings self.
Proof.
  intros host ds.
  apply (run_decls_all host (fun a b => settings b = settings a)).
  - reflexivity.
  - intros a b c H1 H2. now rewrite H2.
  - apply Forall_forall. intros d _. apply run_decl_settings.
Qed.

(** X20.  When the function given to [path] raises, [path] passes the
    exception on without restoring the scope: the scope then still
    starts with the old scope followed by the segments of the path. *)
Theorem path_leaves_scope_extended_when_body_raises :
  forall (host : RegExpHost) (p : path_arg) (routesFn : list decl)
         (self self' : Router) (e : exn) (parts : list string),
    split_path host self (path_string p) = Ok parts ->
    path host p routesFn self = (self', Abrupt e) ->
    exists extra, scope self' = (scope self ++ parts ++ extra)%list.
Proof.
  intros host p routesFn self self' e parts Hs H.
  unfold path in H. rewrite run_decl_path, Hs in H.
  destruct (run_decls_scope_grows host routesFn
              (set_scope self (scope self ++ parts)%list)) as [extra E].
  destruct (run_decls host routesFn _) as [s1 [|x|]]; [discriminate| |discriminate].
  injection H as -> _. exists extra. cbn [fst scope set_scope] in E.
  now rewrite E, app_assoc.
Qed.

(* ------------------------------------------------------------------ *)
(** ** Mounting: [mount] *)

Lemma split_on_skip (sep pre rest piece : string) :
  split_on sep (String.length pre) piece (pre ++ rest) = split_on sep 0 piece rest
  \/ (rest = "" /\ split_on sep (String.length pre) piece (pre ++ rest) = [piece]).
Proof.
  induction pre as [|c pre IH]; simpl.
  - now left.
  - exact IH.
Qed.

Lemma split_on_end (sep piece : string) : split_on sep 0 piece "" = [piece].
Proof. reflexivity. Qed.

Lemma split_on_skipped (sep pre rest piece : string) :
  split_on sep (String.length pre) piece (pre ++ rest) = split_on sep 0 piece rest.
Proof.
  destruct (split_on_skip sep pre rest piece) as [H | [-> H]]; [exact H|].
  now rewrite H.
Qed.

(** A string that starts with the separator splits into the empty string
    and the parts of what follows. *)
Lemma string_split_prefixed (sep rest : string) :
  sep <> "" ->
  string_split sep (sep ++ rest) = "" :: string_split sep rest.
Proof.
  intros N. unfold string_split. apply String.eqb_neq in N. rewrite N.
  destruct sep as [|a sep']; [discriminate|].
  change (String a sep' ++ rest) with (String a (sep' ++ rest)).
  cbn [split_on].
  change (String a (sep' ++ rest)) with (String a sep' ++ rest).
  rewrite prefix_append. cbn [String.length].
  replace (S (String.length sep') - 1) with (String.length sep') by lia.
  now rewrite split_on_skipped.
Qed.

Section MountFacts.

Variable rec : value -> list string -> Router -> Router * completion.

(** What [insertOrMount] does with a key that starts with the
    delimiter. *)
Lemma insertOrMount_route (routes : props) (rest : string) (local : list string)
      (self : Router) :
  delimiter self <> "" ->
  let route := delimiter self ++ rest in
  let target := own routes route in
  let local' := (local ++ string_split (delimiter self) rest)%list in
  insertOrMount rec routes route local self =
    if jstype_eqb (typeof target) TObject && negb (isArray target)
    then rec target local' self
    else insert "on" local' target self.
Proof.
  intros N route target local'. subst route target local'.
  unfold insertOrMount. cbv zeta.
  rewrite (string_split_prefixed _ rest N).
  cbn [String.eqb orb andb tl]. now rewrite drop_append.
Qed.

(** What it does with a key whose first part is a registered method
    name. *)
Lemma insertOrMount_method (routes : props) (route p0 : string)
      (more local : list string) (self : Router) :
  string_split (delimiter self) route = p0 :: more ->
  p0 <> "" ->
  is_method self p0 = true ->
  insertOrMount rec routes route local self
  = insert route local (own routes route) self.
Proof.
  intros Hs N Hm. unfold insertOrMount. cbv zeta. rewrite Hs, Hm.
  apply String.eqb_neq in N. rewrite N. reflexivity.
Qed.

Lemma insertOrMount_same (k : string) (v : value) (more : props)
      (route : string) (local : list string) (self : Router) :
  (k =? route) = false ->
  insertOrMount rec ((k, v) :: more) route local self
  = insertOrMount rec more route local self.
Proof.
  intros N. unfold insertOrMount, own. cbn [lookup]. now rewrite N.
Qed.

Lemma mount_loop_fresh (k : string) (v : value) (more : props) (keys : list string)
      (path : list string) :
  ~ In k keys ->
  forall self,
    mount_loop rec ((k, v) :: more) keys path self
    = mount_loop rec more keys path self
    \/ exists route, In route keys /\ has_key route more = false.
Proof.
  intros Hk. induction keys as [|route keys IH]; intros self; [now left|].
  assert ((k =? route) = false) as N
      by (apply String.eqb_neq; intros ->; apply Hk; now left).
  assert (~ In k keys) as Hk' by (intros H; apply Hk; now right).
  destruct (has_key route more) eqn:Hh.
  - cbn [mount_loop]. unfold has_key at 1. cbn [lookup]. rewrite N.
    fold (has_key route more). rewrite Hh.
    rewrite (insertOrMount_same k v more route path self N).
    destruct (insertOrMount rec more route path self) as [self' [|e|]];
      [|now left|now left].
    destruct (IH Hk' self') as [E | (r & Hr & Hn)]; [now left|].
    right. exists r. split; [now right | exact Hn].
  - right. exists route. split; [now left | exact Hh].
Qed.

Lemma has_key_own_keys (ps : props) (k : string) :
  In k (map fst ps) -> has_key k ps = true.
Proof.
  unfold has_key. induction ps as [|[k' v] t IH]; simpl; [contradiction|].
  intros [-> | H]; [now rewrite String.eqb_refl|].
  destruct (k' =? k); [reflexivity | now apply IH].
Qed.

Lemma mount_loop_cons (k : string) (v : value) (more : props) (path : list string)
      (self : Router) :
  ~ In k (map fst more) ->
  mount_loop rec ((k, v) :: more) (k :: map fst more) path self =
    match insertOrMount rec ((k, v) :: more) k path self with
    | (self', Normal) => mount_loop rec more (map fst more) path self'
    | (self', out) => (self', out)
    end.
Proof.
  intros Hk. cbn [mount_loop]. unfold has_key at 1. cbn [lookup].
  rewrite String.eqb_refl.
  destruct (insertOrMount rec ((k, v) :: more) k path self) as [self' [|e|]];
    try reflexivity.
  destruct (mount_loop_fresh k v more (map fst more) path Hk self')
    as [E | (r & Hr & Hn)]; [exact E|].
  now rewrite (has_key_own_keys more r Hr) in Hn.
Qed.

End MountFacts.

Lemma own_head (k : string) (v : value) (more : props) : own ((k, v) :: more) k = v.
Proof. unfold own. simpl. now rewrite String.eqb_refl. Qed.

Lemma set_routes_same' (r : Router) (v : value) :
  set_routes (set_routes r v) (routes r) = r.
Proof. now destruct r. Qed.

Lemma mount_unfold (depth : nat) (routes : value) (path : list string) (self : Router) :
  mount depth routes path self =
    mount_body
      (match depth with
       | O => fun _ _ self' => (self', Abrupt RangeError)
       | S d => fun routes' path' self' => mount d routes' path' self'
       end)
      routes path self.
Proof. now destruct depth. Qed.

Lemma mount_object (depth : nat) (ps : props) (path : list string) (self : Router) :
  mount depth (VObj ps) path self =
    mount_loop
      (match depth with
       | O => fun _ _ self' => (self', Abrupt RangeError)
       | S d => fun routes' path' self' => mount d routes' path' self'
       end)
      ps (map fst ps) path self.
Proof. now rewrite mount_unfold. Qed.

Lemma mount_inserts_route_entry_aux (depth : nat) (self : Router) (rest : string)
      (v : value) (more : props) (path : list string) :
  let d := delimiter self in
  d <> "" ->
  ~ In (d ++ rest) (map fst more) ->
  jstype_eqb (typeof v) TObject && negb (isArray v) = false ->
  mount depth (VObj ((d ++ rest, v) :: more)) path self =
    match insert "on" (path ++ string_split d rest)%list v self with
    | (self', Normal) => mount depth (VObj more) path self'
    | (self', out) => (self', out)
    end.
Proof.
  intros d N Hk Hv. subst d.
  rewrite mount_object. cbn [map fst]. rewrite mount_loop_cons by exact Hk.
  rewrite insertOrMount_route by exact N.
  rewrite own_head, Hv.
  destruct (insert "on" _ v self) as [self' [|e|]]; try reflexivity.
  now rewrite mount_object.
Qed.

(** X21.  An entry of a mounted object whose key is the delimiter
    followed by some text, and whose value is not a plain object, is
    inserted for [on] at the given path extended by the parts of that
    text; the other entries follow when that insertion returns
    normally. *)
Theorem mount_inserts_route_entry :
  forall (depth : nat) (self : Router) (rest : string) (v : value)
         (more : props) (path : list string),
    let d := delimiter self in
    d <> "" ->
    ~ In (d ++ rest) (map fst more) ->
    jstype_eqb (typeof v) TObject && negb (isArray v) = false ->
    mount depth (VObj ((d ++ rest, v) :: more)) path self =
      match insert "on" (path ++ string_split d rest)%list v self with
      | (self', Normal) => mount depth (VObj more) path self'
      | (self', out) => (self', out)
      end.
Proof. exact mount_inserts_route_entry_aux. Qed.

(** X22.  An entry whose key is the delimiter followed by some text, and
    whose value is a plain object (or [null]), is mounted in turn, at the
    given path extended by the parts of that text; the other entries
    follow when that returns normally. *)
Theorem mount_descends_into_nested_entry :
  forall (depth : nat) (self : Router) (rest : string) (v : value)
         (more : props) (path : list string),
    let d := delimiter self in
    d <> "" ->
    ~ In (d ++ rest) (map fst more) ->
    jstype_eqb (typeof v) TObject && negb (isArray v) = true ->
    mount (S depth) (VObj ((d ++ rest, v) :: more)) path self =
      match mount depth v (path ++ string_split d rest)%list self with
      | (self', Normal) => mount (S depth) (VObj more) path self'
      | (self', out) => (self', out)
      end.
Proof.
  intros depth self rest v more path d N Hk Hv. subst d.
  rewrite mount_object. cbn [map fst]. rewrite mount_loop_cons by exact Hk.
  rewrite insertOrMount_route by exact N.
  rewrite own_head, Hv.
  destruct (mount depth v _ self) as [self' [|e|]]; reflexivity.
Qed.

(** X23.  An entry whose key begins, up to the first delimiter, with a
    registered method name is inserted as it is: the whole key is the
    method, the path is the given one, and the value is the route, plain
    object or not. *)
Theorem mount_inserts_method_entry :
  forall (depth : nat) (self : Router) (k p0 : string) (parts : list string)
         (v : value) (more : props) (path : list string),
    string_split (delimiter self) k = p0 :: parts ->
    p0 <> "" ->
    is_method self p0 = true ->
    ~ In k (map fst more) ->
    mount depth (VObj ((k, v) :: more)) path self =
      match insert k path v self with
      | (self', Normal) => mount depth (VObj more) path self'
      | (self', out) => (self', out)
      end.
Proof.
  intros depth self k p0 parts v more path Hs N Hm Hk.
  rewrite mount_object. cbn [map fst]. rewrite mount_loop_cons by exact Hk.
  rewrite (insertOrMount_method _ _ k p0 parts path self Hs N Hm).
  rewrite own_head.
  destruct (insert k path v self) as [self' [|e|]]; try reflexivity.
  now rewrite mount_object.
Qed.


Lemma mount_loop_only_routes
      (rec : value -> list string -> Router -> Router * completion) :
  (forall v path self, set_routes (fst (rec v path self)) (routes self) = self) ->
  forall (ps : props) (keys : list string) (path : list string) (self : Router),
    set_routes (fst (mount_loop rec ps keys path self)) (routes self) = self.
Proof.
  intros Hrec ps keys path. induction keys as [|k keys IH]; intros self;
    cbn [mount_loop fst]; [apply set_routes_same|].
  destruct (has_key k ps); [|apply IH].
  assert (set_routes (fst (insertOrMount rec ps k path self)) (routes self) = self) as H.
  { unfold insertOrMount.
    match goal with
    | |- context [if ?c then rec ?a ?b self else insert ?m ?l ?t self] =>
        destruct c; [apply Hrec | rewrite insert_only_routes; apply set_routes_same']
    end. }
  destruct (insertOrMount rec ps k path self) as [self' [|e|]]; cbn [fst] in *;
    try exact H.
  transitivity (set_routes
                  (set_routes (fst (mount_loop rec ps keys path self')) (routes self'))
                  (routes self)); [reflexivity|].
  now rewrite IH.
Qed.

(** X25.  [mount], whatever it is given and however it ends, changes
    nothing in the router but the table. *)
Theorem mount_changes_only_the_table :
  forall (depth : nat) (v : value) (path : list string) (self : Router),
    set_routes (fst (mount depth v path self)) (routes self) = self.
Proof.
  intros depth. induction depth as [|d IH]; intros v path self; rewrite mount_unfold;
    unfold mount_body;
    (destruct (negb (truthy v) || negb (jstype_eqb (typeof v) TObject) || isArray v);
     [apply set_routes_same|]);
    (destruct v; try apply set_routes_same);
    apply mount_loop_only_routes.
  - intros v' path' self'. apply set_routes_same.
  - exact IH.
Qed.

(* ------------------------------------------------------------------ *)
(** ** Compiling segments without tokens *)

Lemma replace_char_all_absent (c : ascii) (r s : string) :
  Str.contains_char c s = false -> Str.replace_char_all c r s = s.
Proof.
  induction s as [|a s IH]; simpl; [reflexivity|].
  intros H. apply orb_false_iff in H as [Ha Hs]. now rewrite Ha, IH.
Qed.

Lemma replace_star_keeps_colon_free (s : string) :
  Str.contains_char ":" s = false ->
  Str.contains_char ":" (Str.replace_char_all "*" wildcard_capture s) = false.
Proof.
  induction s as [|a s IH]; [reflexivity|].
  cbn [Str.contains_char Str.replace_char_all].
  intros H. apply orb_false_iff in H as [Ha Hs].
  destruct (Ascii.eqb a "*").
  - rewrite contains_char_append, (IH Hs). reflexivity.
  - cbn [Str.contains_char]. now rewrite Ha, IH.
Qed.

(** X26.  A segment without a colon compiles to itself with every star
    replaced by the wildcard group, whatever substitutions are
    registered. *)
Theorem regify_without_colon_expands_wildcards :
  forall (s : string) (p : params_t),
    Str.contains_char ":" s = false ->
    regifyString s p = Str.replace_char_all "*" wildcard_capture s.
Proof.
  intros s p H. rewrite regifyString_unfold.
  assert (expand_wildcards s = Str.replace_char_all "*" wildcard_capture s) as E.
  { unfold expand_wildcards. destruct (Str.contains_char "*" s) eqn:Es; [reflexivity|].
    now rewrite replace_char_all_absent. }
  unfold compiled_tokens. rewrite E.
  rewrite <- (append_nil_r (Str.replace_char_all "*" wildcard_capture s)) at 1.
  rewrite scan_tokens_skip by now apply replace_star_keeps_colon_free.
  reflexivity.
Qed.

(* ------------------------------------------------------------------ *)
(** ** The order of the keys and of the layers *)


Section Ladder.

Variable host : RegExpHost.
Variable self : Router.
Variable p : string.
Variable groups : list value.

Hypothesis on_is_method : is_method self "on" = true.
Hypothesis p_nonempty : p <> "".
Hypothesis p_not_delimiter : p <> delimiter self.

Lemma traverse_rung (steps : list (string * fid)) :
  forall (own_on : option fid) (regexp : string) (depth : nat),
    steps <> [] ->
    Forall (fun s => plain_key (fst s)) steps ->
    descends host self p regexp (map fst steps) groups ->
    List.length steps <= S depth ->
    traverse host self depth "on" p (rung own_on steps) regexp
    = Ok (TFns {| layers :=
                    if truthy (recurse self)
                    then map (fun f => VArr [VFun f]) (rev (map snd steps))
                    else [VArr [VFun (List.last (map snd steps) 0)]];
                  after := [];
                  fn_captures := groups |}).
Proof.
  induction steps as [|[k f] rest IH]; intros own_on regexp depth Hne Hk Hm Hd;
    [now elim Hne|].
  apply Forall_cons_iff in Hk as [(Kon & Kbefore & Kafter) Hrest]. cbn [fst] in *.
  apply String.eqb_neq in Kon, Kbefore, Kafter.
  cbn [map fst descends] in Hm. destruct Hm as (re & m0 & g & Hc & He & Hm).
  set (child := VObj (("on", VFun f) :: ladder rest)).
  assert (child = rung (Some f) rest) as Echild by reflexivity.
  assert (forall rec,
             traverse_body host self rec "on" p (rung own_on ((k, f) :: rest)) regexp
             = traverse_loop host self rec "on" p (rung own_on ((k, f) :: rest))
                             regexp [k]) as Hbody.
  { intros rec. unfold traverse_body.
    apply String.eqb_neq in p_not_delimiter. rewrite p_not_delimiter.
    cbn [bind andb]. unfold rung.
    destruct own_on as [f0|]; cbn [app ladder own_keys map fst traverse_loop];
      [|reflexivity].
    unfold explorable. cbn [hasOwnProperty]. unfold has_key. cbn [lookup].
    cbn [String.eqb Ascii.eqb Bool.eqb andb]. rewrite on_is_method.
    cbn [negb get_prop]. rewrite own_head. reflexivity. }
  assert (get_prop (rung own_on ((k, f) :: rest)) k = Ok child) as Hget.
  { unfold rung. destruct own_on as [f0|]; cbn [app ladder get_prop].
    - unfold own. cbn [lookup]. rewrite String.eqb_sym, Kon, String.eqb_refl.
      reflexivity.
    - now rewrite own_head. }
  assert (explorable self (rung own_on ((k, f) :: rest)) k = Ok true) as Hex.
  { unfold explorable.
    assert (hasOwnProperty (rung own_on ((k, f) :: rest)) k = true) as ->.
    { unfold rung. destruct own_on as [f0|]; cbn [app ladder hasOwnProperty];
        unfold has_key; cbn [lookup];
        rewrite ?(String.eqb_sym "on" k), ?Kon, String.eqb_refl; reflexivity. }
    destruct (is_method self k); cbn [negb]; [|reflexivity].
    now rewrite Hget. }
  assert (own (("on", VFun f) :: ladder rest) "on" = VFun f) as Oon by apply own_head.
  assert (rest <> [] -> Forall (fun s => plain_key (fst s)) rest ->
          own (("on", VFun f) :: ladder rest) "before" = VUndef
          /\ own (("on", VFun f) :: ladder rest) "after" = VUndef) as Oinner.
  { intros _ Hr. destruct rest as [|[k' f'] rest']; [split; reflexivity|].
    apply Forall_cons_iff in Hr as [(_ & Kb' & Ka') _]. cbn [fst] in *.
    apply String.eqb_neq in Kb', Ka'.
    unfold own. cbn [ladder lookup String.eqb Ascii.eqb Bool.eqb andb].
    now rewrite Kb', Ka'. }
  assert (forall rec,
             rest = [] -> m0 = p -> g = groups ->
             traverse_loop host self rec "on" p (rung own_on ((k, f) :: rest))
                           regexp [k]
             = Ok (TFns {| layers := [VArr [VFun f]]; after := [];
                           fn_captures := groups |})) as Hleaf.
  { intros rec -> -> ->. cbn [traverse_loop]. rewrite Hex. cbn [bind negb].
    unfold new_RegExp. rewrite Hc. cbn [bind]. rewrite He, Hget. cbn [bind].
    pose proof (proj2 (String.eqb_neq _ _) p_nonempty) as Hp.
    rewrite Hp, String.eqb_refl. cbn [negb andb].
    unfold child, on_layer, after_layer. cbn [get_prop ladder].
    unfold own. cbn [lookup String.eqb Ascii.eqb Bool.eqb andb bind truthy
                     filter_Boolean filter]. reflexivity. }
  destruct rest as [|[k' f'] rest'].
  - destruct Hm as [-> ->].
    assert ((if truthy (recurse self)
             then map (fun f0 => VArr [VFun f0]) (rev (map snd [(k, f)]))
             else [VArr [VFun (List.last (map snd [(k, f)]) 0)]])
            = [VArr [VFun f]]) as -> by (now destruct (truthy (recurse self))).
    destruct depth; cbn [traverse]; rewrite Hbody; now apply Hleaf.
  - destruct Hm as [Hnp Hm].
    destruct depth as [|d]; [simpl in Hd; lia|].
    cbn [traverse]. rewrite Hbody. cbn [traverse_loop]. rewrite Hex.
    cbn [bind negb]. unfold new_RegExp. rewrite Hc. cbn [bind].
    rewrite He, Hget. cbn [bind].
    apply String.eqb_neq in Hnp. rewrite Hnp, andb_false_r. cbn [bind andb].
    rewrite Echild.
    rewrite (IH (Some f) (current_of self regexp k) d); try assumption;
      [|discriminate | simpl in Hd |- *; lia].
    cbn [bind]. rewrite <- Echild.
    destruct (truthy (recurse self)) eqn:Hrec; [|reflexivity].
    destruct (Oinner ltac:(discriminate) Hrest) as [Ob Oa].
    unfold child, after_layer. cbn [get_prop]. rewrite Ob, Oa, Oon.
    cbn [bind layers after fn_captures filter_Boolean filter truthy app].
    cbn [map snd rev]. now rewrite !map_app.
Qed.

End Ladder.

(** X28.  On the table that [on(k1, f1)], [on(k1/k2, f2)], ... build,
    a path that leads to the last key yields, when the router recurses,
    one layer per key, the handler of the deepest key first and that of
    the first key last; when it does not recurse, the handler of the
    last key alone.  (The host lets the pattern of each key find a match
    that is all of the path for the last key only.) *)
Theorem traverse_collects_ancestors_deepest_first :
  forall (host : RegExpHost) (self : Router) (p : string) (groups : list value)
         (steps : list (string * fid)) (depth : nat),
    is_method self "on" = true ->
    p <> "" ->
    p <> delimiter self ->
    steps <> [] ->
    Forall (fun s => plain_key (fst s)) steps ->
    descends host self p "" (map fst steps) groups ->
    List.length steps <= S depth ->
    traverse host self depth "on" p (VObj (ladder steps)) ""
    = Ok (TFns {| layers :=
                    if truthy (recurse self)
                    then map (fun f => VArr [VFun f]) (rev (map snd steps))
                    else [VArr [VFun (List.last (map snd steps) 0)]];
                  after := [];
                  fn_captures := groups |}).
Proof.
  intros host self p groups steps depth Hon Hp Hd Hne Hk Hm Hdepth.
  exact (traverse_rung host self p groups Hon Hp Hd steps None "" depth Hne Hk Hm Hdepth).
Qed.

Lemma flatten_singletons (fs : list fid) :
  _flatten (map (fun f => VArr [VFun f]) fs) = map VFun fs.
Proof.
  unfold _flatten.
  rewrite <- (map_map (fun f => [VFun f]) VArr), fold_concat1_arrays.
  cbn [app]. induction fs as [|f fs IH]; simpl; [reflexivity | now rewrite IH].
Qed.

Section DispatchDirection.

Variable host : RegExpHost.
Variable handler : oracle.

(** The first dispatch of a synchronous router that recurses and finds
    a route: with [forward] the layers are taken in reverse. *)
Lemma dispatch_first_sync_recursing (depth : nat) (method path : string)
      (callback : value) (self : Router) (tr : trace) (f : fns_t) (dir : string) :
  truthy (async self) = false ->
  truthy (_invoked self) = false ->
  recurse self = VStr dir ->
  dir = "forward" \/ dir = "backward" ->
  layers f <> [] ->
  traverse host self depth method path (routes self) "" = Ok (TFns f) ->
  let self' := set_last_invoked self (VArr (after f)) (VBool true) in
  let f' := {| layers := if dir =? "forward" then rev (layers f) else layers f;
               after := after f; fn_captures := fn_captures f |} in
  dispatch host handler depth method path callback self tr =
    match invoke_sync handler self' (runlist self' f') ThisRouter tr with
    | (tr', Ok _) => (self', tr', Ok true)
    | (tr', Throw e) => (self', tr', Throw e)
    end.
Proof.
  intros Hs Hi Hrec Hdir Hl Ht self' f'. unfold dispatch. rewrite Ht.
  destruct f as [ls a c]. cbn [layers after fn_captures] in *.
  destruct ls as [|l ls]; [now elim Hl|].
  cbn [recurse set_last_invoked]. rewrite Hrec.
  destruct Hdir as [-> | ->]; cbn [String.eqb Ascii.eqb Bool.eqb andb] in f' |- *;
    cbn [_invoked]; rewrite Hi, andb_false_r;
    unfold updateAndInvoke, invoke;
    cbn [async set_last_invoked last _invoked after]; rewrite Hs;
    change (set_last_invoked (set_last_invoked self (last self) (VBool true))
              (VArr a) (VBool true)) with self';
    fold f';
    now destruct (invoke_sync handler self' _ ThisRouter tr) as [tr' [v|e]].
Qed.

End DispatchDirection.

(** X29.  With [recurse] set to [backward], the first dispatch of a path
    that leads down the ladder calls the handler of the deepest key
    first and that of the first key last; with [forward], the handler of
    the first key first.  Each is called on the router with the
    captures of the last match.  (The router is synchronous and has no
    global [before] or [on]; no handler answers [false] or raises.) *)
Theorem dispatch_follows_recurse_direction :
  forall (host : RegExpHost) (handler : oracle) (self : Router) (p : string)
         (groups : list value) (steps : list (string * fid)) (depth : nat)
         (dir : string) (callback : value) (tr : trace),
    let fs := map snd steps in
    routes self = VObj (ladder steps) ->
    recurse self = VStr dir ->
    dir = "forward" \/ dir = "backward" ->
    truthy (async self) = false ->
    truthy (_invoked self) = false ->
    truthy (every_before (every self)) = false ->
    truthy (every_on (every self)) = false ->
    is_method self "on" = true ->
    p <> "" ->
    p <> delimiter self ->
    steps <> [] ->
    Forall (fun s => plain_key (fst s)) steps ->
    descends host self p "" (map fst steps) groups ->
    List.length steps <= S depth ->
    Forall (goes_on handler ThisRouter groups) fs ->
    dispatch host handler depth "on" p callback self tr
    = (set_last_invoked self (VArr []) (VBool true),
       (tr ++ calls_of (if dir =? "forward" then fs else rev fs) ThisRouter groups)%list,
       Ok true).
Proof.
  intros host handler self p groups steps depth dir callback tr fs
         Hr Hrec Hdir Hs Hi Hbefore Hon Hm Hp Hd Hne Hk Hdesc Hdepth Hgo.
  assert (truthy (recurse self) = true) as Htr
      by (rewrite Hrec; destruct Hdir as [-> | ->]; reflexivity).
  pose proof (traverse_rung host self p groups Hm Hp Hd steps None "" depth
                Hne Hk Hdesc Hdepth) as Ht.
  rewrite Htr in Ht. unfold rung in Ht. cbn [app] in Ht. rewrite <- Hr in Ht.
  fold fs in Ht.
  assert (layers {| layers := map (fun f => VArr [VFun f]) (rev fs); after := [];
                    fn_captures := groups |} <> []) as Hl.
  { cbn [layers]. intros E. apply map_eq_nil in E.
    apply (f_equal (@rev fid)) in E. rewrite rev_involutive in E.
    unfold fs in E. apply map_eq_nil in E. now apply Hne. }
  rewrite (dispatch_first_sync_recursing host handler depth "on" p callback self tr
             _ dir Hs Hi Hrec Hdir Hl Ht).
  cbn [layers after fn_captures]. unfold runlist, invoke_sync.
  cbn [every set_last_invoked layers fn_captures items captures_or_null captures].
  rewrite Hbefore, Hon. cbn [items].
  assert (_flatten (if dir =? "forward"
                    then rev (map (fun f => VArr [VFun f]) (rev fs))
                    else map (fun f => VArr [VFun f]) (rev fs))
          = map VFun (if dir =? "forward" then fs else rev fs)) as ->.
  { destruct (dir =? "forward").
    - rewrite <- map_rev, rev_involutive. apply flatten_singletons.
    - apply flatten_singletons. }
  assert (Forall (goes_on handler ThisRouter groups)
                 (if dir =? "forward" then fs else rev fs)) as Hgo'.
  { destruct (dir =? "forward"); [exact Hgo|].
    apply Forall_forall. intros x Hx. apply in_rev in Hx.
    revert x Hx. now apply Forall_forall. }
  now rewrite (every_apply_all handler _ ThisRouter groups _ Hgo' tr).
Qed.

(* ------------------------------------------------------------------ *)
(** ** From the constructor to [traverse] *)


(* ------------------------------------------------------------------ *)
(** ** Examples of the further properties *)

Lemma all_go_on_goes_on (thisArg : this_t) (a : list value) (fs : list fid) :
  Forall (goes_on all_go_on thisArg a) fs.
Proof.
  apply Forall_forall. intros f _. now exists VUndef, (Some VUndef).
Defined.

Lemma all_go_on_calls_next (thisArg : this_t) (a : list value) (fs : list fid) :
  Forall (calls_next all_go_on thisArg a) fs.
Proof.
  apply Forall_forall. intros f _. now exists VUndef, VUndef.
Defined.

(** Two handlers that return [undefined] are both called. *)
Lemma sync_invoke_calls_all_in_order_witness :
  truthy (async new_Router) = false
  /\ Forall (goes_on all_go_on ThisRouter [VStr "x"]) [1; 2]
  /\ invoke all_go_on new_Router
            {| items := [VFun 1; VFun 2]; captures := Some [VStr "x"] |}
            ThisRouter VUndef []
     = ([Build_call 1 ThisRouter [VStr "x"]; Build_call 2 ThisRouter [VStr "x"]],
        Ok tt).
Proof.
  split; [reflexivity|].
  split; [apply all_go_on_goes_on|].
  exact (sync_invoke_calls_all_in_order all_go_on new_Router [1; 2]
           (Some [VStr "x"]) ThisRouter VUndef [] eq_refl
           (all_go_on_goes_on ThisRouter [VStr "x"] [1; 2])).
Defined.

(** Handler 1 answers [false] after handler 2 has run: handler 3 is not
    called. *)
Lemma sync_invoke_stops_at_first_false_witness :
  truthy (async new_Router) = false
  /\ Forall (goes_on first_says_stop ThisRouter []) [2]
  /\ first_says_stop 1 ThisRouter [] = Returns (VBool false) None
  /\ invoke first_says_stop new_Router
            {| items := [VFun 2; VFun 1; VFun 3]; captures := None |}
            ThisRouter VUndef []
     = ([Build_call 2 ThisRouter []; Build_call 1 ThisRouter []], Ok tt).
Proof.
  assert (Forall (goes_on first_says_stop ThisRouter []) [2]) as F.
  { constructor; [now exists VUndef, None | constructor]. }
  split; [reflexivity|]. split; [exact F|]. split; [reflexivity|].
  exact (sync_invoke_stops_at_first_false first_says_stop new_Router [2] 1 None
           [VFun 3] None ThisRouter VUndef [] eq_refl F eq_refl).
Defined.

(** A nested run-list with entries of every kind. *)
Lemma sync_invoke_never_raises_witness :
  never_raises all_go_on
  /\ truthy (resource new_Router) = false
  /\ truthy (async new_Router) = false
  /\ snd (invoke all_go_on new_Router
                 {| items := [VArr [VFun 1; VStr "show"; VArr [VNull]]; VNum 3];
                    captures := None |}
                 ThisRouter VUndef [])
     = Ok tt.
Proof.
  assert (never_raises all_go_on) as N.
  { intros f t a. now exists VUndef, (Some VUndef). }
  split; [exact N|]. split; [reflexivity|]. split; [reflexivity|].
  exact (sync_invoke_never_raises all_go_on new_Router
           {| items := [VArr [VFun 1; VStr "show"; VArr [VNull]]; VNum 3];
              captures := None |}
           ThisRouter VUndef [] N eq_refl eq_refl).
Defined.

(** Two handlers that call [next()], then the callback. *)
Lemma async_invoke_runs_series_then_callback_witness :
  truthy (async async_router) = true
  /\ Forall (calls_next all_go_on ThisRouter [VStr "x"]) [1; 2]
  /\ invoke all_go_on async_router
            {| items := [VFun 1; VFun 2]; captures := Some [VStr "x"] |}
            ThisRouter (VFun 9) []
     = ([Build_call 1 ThisRouter [VStr "x"]; Build_call 2 ThisRouter [VStr "x"];
         Build_call 9 (ThisValue VNull) []], Ok tt).
Proof.
  split; [reflexivity|].
  split; [apply all_go_on_calls_next|].
  exact (async_invoke_runs_series_then_callback all_go_on async_router [1; 2]
           [VStr "x"] ThisRouter 9 VUndef (Some VUndef) [] eq_refl
           (all_go_on_calls_next ThisRouter [VStr "x"] [1; 2]) eq_refl).
Defined.

(** Handler 2 calls [next('boom')]: handler 3 is not called and the
    callback gets the error. *)
Lemma async_invoke_stops_at_error_witness :
  truthy (async async_router) = true
  /\ Forall (calls_next second_fails ThisRouter []) [1]
  /\ second_fails 2 ThisRouter [] = Returns VUndef (Some (VStr "boom"))
  /\ truthy (VStr "boom") || is_false (VStr "boom") = true
  /\ invoke second_fails async_router
            {| items := [VFun 1; VFun 2; VFun 3]; captures := Some [] |}
            ThisRouter (VFun 9) []
     = ([Build_call 1 ThisRouter []; Build_call 2 ThisRouter [];
         Build_call 9 (ThisValue VNull) [VStr "boom"]], Ok tt).
Proof.
  assert (Forall (calls_next second_fails ThisRouter []) [1]) as F.
  { constructor; [now exists VUndef, VUndef | constructor]. }
  split; [reflexivity|]. split; [exact F|]. split; [reflexivity|].
  split; [reflexivity|].
  exact (async_invoke_stops_at_error second_fails async_router [1] 2 [VFun 3] []
           ThisRouter VUndef (VStr "boom") VUndef 9 (Some VUndef) []
           eq_refl F eq_refl eq_refl eq_refl).
Defined.

(** An earlier [configure({async: true, on: h3})] leaves no trace after
    [configure()]. *)
Lemma configure_forgets_earlier_options_witness :
  truthy (o_recurse (options_async_on (VBool true) (VFun 3))) = false
  /\ configure (configure new_Router (options_async_on (VBool true) (VFun 3)))
               no_options
     = configure new_Router no_options.
Proof.
  split; [reflexivity|].
  exact (configure_forgets_earlier_options new_Router
           (options_async_on (VBool true) (VFun 3)) no_options eq_refl).
Defined.

(** [extend(['get', 'post'])] on a new router. *)
Lemma extend_registers_names_witness :
  extend ["get"; "post"] new_Router
  = (fst (extend ["get"; "post"] new_Router), Normal)
  /\ is_method (fst (extend ["get"; "post"] new_Router)) "post" = true
  /\ is_method (fst (extend ["get"; "post"] new_Router)) "put" = false.
Proof.
  split; [reflexivity|].
  destruct (extend_registers_names ["get"; "post"] new_Router
              (fst (extend ["get"; "post"] new_Router)) eq_refl) as [H _].
  split; [exact (H "post") | exact (H "put")].
Defined.



(** The root slot for [on] holds a string: a handler inserted there is
    dropped. *)
Lemma root_insert_over_primitive_is_dropped_witness :
  routes named_root_router = VObj [("on", VStr "name")]
  /\ filter nonempty [""] = []
  /\ typeof (own [("on", VStr "name")] "on") = TString
  /\ insert "on" [""] (VFun 1) named_root_router = (named_root_router, Normal).
Proof.
  split; [reflexivity|]. split; [reflexivity|]. split; [reflexivity|].
  exact (root_insert_over_primitive_is_dropped named_root_router "on" [""] (VFun 1)
           [("on", VStr "name")] eq_refl eq_refl (or_introl eq_refl)).
Defined.





(** After a dispatch of [/a], whose node has an [after] handler, a
    dispatch of [/b] calls that handler and then the handler of [/b]. *)
Lemma dispatch_runs_recorded_after_handlers_first_witness :
  last visited_router = VArr [VFun 7]
  /\ truthy (_invoked visited_router) = true
  /\ traverse MiniRegExp.host visited_router 3 "on" "/b" (routes visited_router) ""
     = Ok (TFns {| layers := [VArr [VFun 2]]; after := []; fn_captures := [] |})
  /\ dispatch MiniRegExp.host all_go_on 3 "on" "/b" VUndef visited_router []
     = (set_last_invoked visited_router (VArr []) (VBool true),
        [Build_call 7 ThisRouter []; Build_call 2 ThisRouter []], Ok true).
Proof.
  split; [reflexivity|]. split; [reflexivity|]. split; [reflexivity|].
  refine (dispatch_runs_recorded_after_handlers_first MiniRegExp.host all_go_on
            visited_router 3 "on" "/b" VUndef []
            {| layers := [VArr [VFun 2]]; after := []; fn_captures := [] |}
            [7] [2] eq_refl eq_refl eq_refl eq_refl eq_refl eq_refl eq_refl eq_refl
            _ eq_refl (all_go_on_goes_on ThisRouter [] [7])
            (all_go_on_goes_on ThisRouter [] [2])).
  discriminate.
Defined.

(** A router with a not-found handler and no routes. *)
Lemma sync_dispatch_without_route_calls_notfound_witness :
  truthy (async (configure new_Router (options_async_notfound VUndef (VFun 5)))) = false
  /\ traverse MiniRegExp.host
              (configure new_Router (options_async_notfound VUndef (VFun 5)))
              3 "on" "/nowhere" (VObj []) ""
     = Ok TFalse
  /\ dispatch MiniRegExp.host all_go_on 3 "on" "/nowhere" VUndef
              (configure new_Router (options_async_notfound VUndef (VFun 5))) []
     = (set_last_invoked
          (configure new_Router (options_async_notfound VUndef (VFun 5)))
          (VArr []) (VBool true),
        [Build_call 5 (notfound_this "on" "/nowhere") []], Ok false).
Proof.
  split; [reflexivity|]. split; [reflexivity|].
  exact (sync_dispatch_without_route_calls_notfound MiniRegExp.host all_go_on 3
           "on" "/nowhere" VUndef
           (configure new_Router (options_async_notfound VUndef (VFun 5))) []
           eq_refl eq_refl).
Defined.

(** [path('/foo', function () { this.param('(', 'x') })]: the token is
    not a regular expression, and the scope is left at [/foo]. *)
Lemma path_leaves_scope_extended_when_body_raises_witness :
  split_path MiniRegExp.host new_Router (path_string (PStr "/foo")) = Ok [""; "foo"]
  /\ snd (path MiniRegExp.host (PStr "/foo") [DParam "(" "x"] new_Router)
     = Abrupt (SyntaxError "Invalid regular expression: :(")
  /\ exists extra,
       scope (fst (path MiniRegExp.host (PStr "/foo") [DParam "(" "x"] new_Router))
       = (scope new_Router ++ [""; "foo"] ++ extra)%list.
Proof.
  split; [reflexivity|]. split; [reflexivity|].
  exact (path_leaves_scope_extended_when_body_raises MiniRegExp.host (PStr "/foo")
           [DParam "(" "x"] new_Router
           (fst (path MiniRegExp.host (PStr "/foo") [DParam "(" "x"] new_Router))
           (SyntaxError "Invalid regular expression: :(") [""; "foo"]
           eq_refl eq_refl).
Defined.

(** [mount({'/users/list': h1})] *)
Lemma mount_inserts_route_entry_witness :
  delimiter new_Router <> ""
  /\ jstype_eqb (typeof (VFun 1)) TObject && negb (isArray (VFun 1)) = false
  /\ mount 0 (VObj [("/users/list", VFun 1)]) [] new_Router
     = insert "on" ["users"; "list"] (VFun 1) new_Router.
Proof.
  assert (delimiter new_Router <> "") as N by discriminate.
  split; [exact N|]. split; [reflexivity|].
  exact (mount_inserts_route_entry 0 new_Router "users/list" (VFun 1) [] []
           N (fun H => H) eq_refl).
Defined.

(** [mount({'/users': {'/list': h1}, '/x': h2})] *)
Lemma mount_descends_into_nested_entry_witness :
  delimiter new_Router <> ""
  /\ mount 1 (VObj [("/users", VObj [("/list", VFun 1)]); ("/x", VFun 2)]) [] new_Router
     = mount 1 (VObj [("/x", VFun 2)]) []
             (fst (mount 0 (VObj [("/list", VFun 1)]) ["users"] new_Router))
  /\ routes (fst (mount 1 (VObj [("/users", VObj [("/list", VFun 1)]); ("/x", VFun 2)])
                        [] new_Router))
     = VObj [("users", VObj [("list", VObj [("on", VFun 1)])]);
             ("x", VObj [("on", VFun 2)])].
Proof.
  assert (delimiter new_Router <> "") as N by discriminate.
  assert (~ In (delimiter new_Router ++ "users") (map fst [("/x", VFun 2)])) as K.
  { intros [H | []]. discriminate H. }
  split; [exact N|].
  split; [|reflexivity].
  exact (mount_descends_into_nested_entry 0 new_Router "users"
           (VObj [("/list", VFun 1)]) [("/x", VFun 2)] [] N K eq_refl).
Defined.

(** After [extend(['get'])], [mount({'get': h1}, ['a'])] inserts for
    [get]. *)
Lemma mount_inserts_method_entry_witness :
  string_split (delimiter get_router) "get" = ["get"]
  /\ is_method get_router "get" = true
  /\ mount 0 (VObj [("get", VFun 1)]) ["a"] get_router
     = insert "get" ["a"] (VFun 1) get_router.
Proof.
  assert ("get" <> "") as N by discriminate.
  split; [reflexivity|]. split; [reflexivity|].
  exact (mount_inserts_method_entry 0 get_router "get" "get" [] (VFun 1) [] ["a"]
           eq_refl N eq_refl (fun H => H)).
Defined.


(** A segment with a wildcard and no token. *)
Lemma regify_without_colon_expands_wildcards_witness :
  Str.contains_char ":" "files-*" = false
  /\ regifyString "files-*" (params (id_router "(\d+)"))
     = "files-([_.()!\ %@&a-zA-Z0-9-]+)".
Proof.
  split; [reflexivity|].
  exact (regify_without_colon_expands_wildcards "files-*"
           (params (id_router "(\d+)")) eq_refl).
Defined.


Lemma a_b_descends :
  descends MiniRegExp.host backward_router "/a/b" "" ["a"; "b"] [].
Proof.
  cbn [descends].
  eexists _, _, _. split; [reflexivity|]. split; [reflexivity|].
  split; [discriminate|].
  eexists _, _, _. split; [reflexivity|]. split; [reflexivity|].
  split; reflexivity.
Defined.

Lemma a_b_plain : Forall (fun s : string * fid => plain_key (fst s)) [("a", 1); ("b", 2)].
Proof.
  constructor; [repeat split; discriminate|].
  constructor; [repeat split; discriminate | constructor].
Defined.

(** [on('/a', h1); on('/a/b', h2)] with [recurse] set: the layer of
    [/a/b] comes before the layer of [/a]. *)
Lemma traverse_collects_ancestors_deepest_first_witness :
  routes backward_router = VObj (ladder [("a", 1); ("b", 2)])
  /\ descends MiniRegExp.host backward_router "/a/b" "" ["a"; "b"] []
  /\ traverse MiniRegExp.host backward_router 3 "on" "/a/b"
              (VObj (ladder [("a", 1); ("b", 2)])) ""
     = Ok (TFns {| layers := [VArr [VFun 2]; VArr [VFun 1]]; after := [];
                   fn_captures := [] |}).
Proof.
  split; [reflexivity|]. split; [exact a_b_descends|].
  refine (traverse_collects_ancestors_deepest_first MiniRegExp.host backward_router
            "/a/b" [] [("a", 1); ("b", 2)] 3 eq_refl _ _ _ a_b_plain
            a_b_descends _); try discriminate.
  cbn. lia.
Defined.

(** The same router dispatches [/a/b] to [h2] and then [h1]. *)
Lemma dispatch_follows_recurse_direction_witness :
  routes backward_router = VObj (ladder [("a", 1); ("b", 2)])
  /\ recurse backward_router = VStr "backward"
  /\ descends MiniRegExp.host backward_router "/a/b" "" ["a"; "b"] []
  /\ dispatch MiniRegExp.host all_go_on 3 "on" "/a/b" VUndef backward_router []
     = (set_last_invoked backward_router (VArr []) (VBool true),
        [Build_call 2 ThisRouter []; Build_call 1 ThisRouter []], Ok true).
Proof.
  split; [reflexivity|]. split; [reflexivity|]. split; [exact a_b_descends|].
  refine (dispatch_follows_recurse_direction MiniRegExp.host all_go_on backward_router
            "/a/b" [] [("a", 1); ("b", 2)] 3 "backward" VUndef []
            eq_refl eq_refl (or_intror eq_refl) eq_refl eq_refl eq_refl eq_refl eq_refl
            _ _ _ a_b_plain a_b_descends _
            (all_go_on_goes_on ThisRouter [] [1; 2])); try discriminate.
  cbn. lia.
Defined.

